(** * The codespace dashboard server (tools/codespace-client/server.js)

    A shallow embedding of the session-state store, the server-sent-event
    fan-out, the lifecycle handlers of the messaging client and the HTTP
    request handler, followed by the properties of the specification that
    were checked against them. *)

From Stdlib Require Import List String Ascii Bool ZArith NArith QArith Lia.
From Stdlib Require Import Permutation Sorted.
Import ListNotations.

Local Close Scope Q_scope.
Local Open Scope string_scope.
Local Open Scope list_scope.

(** ** JavaScript values used by the server *)

Module Js.

(** A JavaScript number: the finite doubles are rationals, and [Math.min],
    [Math.max] and [Number.isFinite] are exact on them. *)
Inductive JsNumber : Type :=
| NaN
| PosInfinity
| NegInfinity
| Fin (q : Q).

#[local] Set Warnings "-register-all".

(** What [JSON.parse] returns. [JObj] lists the own properties of the
    object that was built, each key once. *)
Inductive JsValue : Type :=
| JNull
| JBool (b : bool)
| JNum (n : JsNumber)
| JStr (s : string)
| JArr (items : list JsValue)
| JObj (props : list (string * JsValue)).

(** The settled value of a promise, or the result of a [try] block:
    [Rejected m] carries the [message] of the [Error]. *)
Inductive Fallible (A : Type) : Type :=
| Resolved (a : A)
| Rejected (message : string).
Arguments Resolved {A} a.
Arguments Rejected {A} message.

(** [x || d] for a string-or-missing [x]: [undefined], [null] and the empty
    string are falsy. *)
Definition or_string (x : option string) (d : string) : string :=
  match x with
  | Some EmptyString => d
  | Some s => s
  | None => d
  end.

(** [x || 0] for a number-or-missing [x] (integers here: counts and
    timestamps in seconds). *)
Definition or_zero (x : option Z) : Z :=
  match x with
  | Some z => z
  | None => 0%Z
  end.

(** [x || null] for a number-or-missing [x]: zero is falsy too. *)
Definition or_null (x : option Z) : option Z :=
  match x with
  | Some 0%Z => None
  | Some z => Some z
  | None => None
  end.

(** [Boolean(x)] for a boolean-or-missing [x]. *)
Definition Boolean (x : option bool) : bool :=
  match x with
  | Some b => b
  | None => false
  end.

(** [s.length], as a binary number (for ASCII text, where a character is
    one byte and one UTF-16 unit). *)
Definition strlen (s : string) : N := N.of_nat (String.length s).

(** [s.includes(sub)]. *)
Fixpoint includes (s sub : string) : bool :=
  String.prefix sub s
  || match s with
     | EmptyString => false
     | String _ rest => includes rest sub
     end.

Definition isFinite (n : JsNumber) : bool :=
  match n with
  | Fin _ => true
  | _ => false
  end.

(** [Math.min(a, b)] and [Math.max(a, b)]. *)
Definition Math_min (a b : JsNumber) : JsNumber :=
  match a, b with
  | NaN, _ | _, NaN => NaN
  | NegInfinity, _ | _, NegInfinity => NegInfinity
  | PosInfinity, x | x, PosInfinity => x
  | Fin x, Fin y => if Qle_bool x y then Fin x else Fin y
  end.

Definition Math_max (a b : JsNumber) : JsNumber :=
  match a, b with
  | NaN, _ | _, NaN => NaN
  | PosInfinity, _ | _, PosInfinity => PosInfinity
  | NegInfinity, x | x, NegInfinity => x
  | Fin x, Fin y => if Qle_bool x y then Fin y else Fin x
  end.

(** [ToIntegerOrInfinity] of a finite number: truncation towards zero. *)
Definition truncate (q : Q) : Z := Z.quot (Qnum q) (Zpos (Qden q)).

(** [arr.slice(0, end)]. *)
Definition slice0 {A : Type} (l : list A) (e : JsNumber) : list A :=
  match e with
  | NaN => []
  | NegInfinity => []
  | PosInfinity => l
  | Fin q =>
      let len := Z.of_nat (List.length l) in
      let rel := truncate q in
      let final := if (rel <? 0)%Z then Z.max (len + rel) 0 else Z.min rel len in
      firstn (Z.to_nat final) l
  end.

(** [arr.sort(cmp)]: the sort is stable; [cmp a b <= 0] keeps [a] before
    [b]. Insertion from the right gives the stable order. *)
Fixpoint insert_by {A : Type} (cmp : A -> A -> Z) (x : A) (l : list A) : list A :=
  match l with
  | [] => [x]
  | y :: rest =>
      if (cmp x y <=? 0)%Z then x :: y :: rest
      else y :: insert_by cmp x rest
  end.

Fixpoint sort_by {A : Type} (cmp : A -> A -> Z) (l : list A) : list A :=
  match l with
  | [] => []
  | x :: rest => insert_by cmp x (sort_by cmp rest)
  end.

End Js.
Import Js.

(** ** The session state (lines 14-37) *)

(** [client.info] as projected by the [ready] handler. *)
Record Info : Type := {
  pushname : string;
  wid : option string;
  platform : string
}.

Record AppState : Type := {
  status : string;
  qr : option string;
  info : option Info;
  authFailure : option string;
  disconnectedReason : option string;
  lastUpdateAt : string
}.

(** [appState] as the module initialises it at the instant [now]. *)
Definition initialState (now : string) : AppState :=
  {| status := "starting";
     qr := None;
     info := None;
     authFailure := None;
     disconnectedReason := None;
     lastUpdateAt := now |}.

(** An object literal over the keys of [appState]: a key is either absent
    ([None]) or present with its value, which may be [null]. *)
Record Partial : Type := {
  p_status : option string;
  p_qr : option (option string);
  p_info : option (option Info);
  p_authFailure : option (option string);
  p_disconnectedReason : option (option string);
  p_lastUpdateAt : option string
}.

Definition emptyPartial : Partial :=
  {| p_status := None; p_qr := None; p_info := None; p_authFailure := None;
     p_disconnectedReason := None; p_lastUpdateAt := None |}.

Definition overwrite {A : Type} (old : A) (new : option A) : A :=
  match new with
  | Some v => v
  | None => old
  end.

(** [Object.assign(target, source)] for one source. *)
Definition assign (target : AppState) (source : Partial) : AppState :=
  {| status := overwrite (status target) (p_status source);
     qr := overwrite (qr target) (p_qr source);
     info := overwrite (info target) (p_info source);
     authFailure := overwrite (authFailure target) (p_authFailure source);
     disconnectedReason :=
       overwrite (disconnectedReason target) (p_disconnectedReason source);
     lastUpdateAt := overwrite (lastUpdateAt target) (p_lastUpdateAt source) |}.

(** [publicState()]: a fresh object with the six fields copied. *)
Definition publicState (s : AppState) : AppState :=
  {| status := status s;
     qr := qr s;
     info := info s;
     authFailure := authFailure s;
     disconnectedReason := disconnectedReason s;
     lastUpdateAt := lastUpdateAt s |}.

(** ** Messages and chats as the client library hands them over *)

(** The fields of a library [Message] that [serializeMessage] reads. *)
Record RawMessage : Type := {
  rm_id : string;                  (* message.id._serialized *)
  rm_fromMe : option bool;
  rm_from : string;
  rm_to : string;
  rm_body : option string;
  rm_type : string;
  rm_author : option string;
  rm_notifyName : option string;
  rm_timestamp : option Z;
  rm_hasMedia : option bool;
  rm_ack : option Z
}.

Record Message : Type := {
  m_id : string;
  m_chatId : string;
  m_body : string;
  m_type : string;
  m_from : string;
  m_to : string;
  m_author : option string;
  m_notifyName : option string;
  m_fromMe : bool;
  m_timestamp : option Z;
  m_hasMedia : bool;
  m_ack : option Z
}.

(** [x || null] for a string-or-missing [x]. *)
Definition string_or_null (x : option string) : option string :=
  match x with
  | Some EmptyString => None
  | Some s => Some s
  | None => None
  end.

Definition serializeMessage (message : RawMessage) : Message :=
  {| m_id := rm_id message;
     m_chatId := if Boolean (rm_fromMe message) then rm_to message
                 else rm_from message;
     m_body := or_string (rm_body message) "";
     m_type := rm_type message;
     m_from := rm_from message;
     m_to := rm_to message;
     m_author := string_or_null (rm_author message);
     m_notifyName := string_or_null (rm_notifyName message);
     m_fromMe := Boolean (rm_fromMe message);
     m_timestamp := rm_timestamp message;
     m_hasMedia := Boolean (rm_hasMedia message);
     m_ack := rm_ack message |}.

(** The fields of a library [Chat] that [serializeChat] and the sort read. *)
Record RawChat : Type := {
  rc_id : string;                  (* chat.id._serialized *)
  rc_user : string;                (* chat.id.user *)
  rc_name : option string;
  rc_formattedTitle : option string;
  rc_isGroup : option bool;
  rc_unreadCount : option Z;
  rc_timestamp : option Z;
  rc_lastMessageBody : option string;   (* chat.lastMessage?.body *)
  rc_archived : option bool;
  rc_pinned : option bool
}.

Record Chat : Type := {
  c_id : string;
  c_name : string;
  c_isGroup : bool;
  c_unreadCount : Z;
  c_timestamp : option Z;
  c_lastMessageBody : string;
  c_archived : bool;
  c_pinned : bool
}.

Definition serializeChat (chat : RawChat) : Chat :=
  {| c_id := rc_id chat;
     c_name := or_string (rc_name chat)
                 (or_string (rc_formattedTitle chat) (rc_user chat));
     c_isGroup := Boolean (rc_isGroup chat);
     c_unreadCount := or_zero (rc_unreadCount chat);
     c_timestamp := or_null (rc_timestamp chat);
     c_lastMessageBody := or_string (rc_lastMessageBody chat) "";
     c_archived := Boolean (rc_archived chat);
     c_pinned := Boolean (rc_pinned chat) |}.

(** ** The event stream (lines 23, 39-44, 161-181) *)

(** A response object, known by its identity only. *)
Definition Res : Type := nat.

(** What an event carries: [JSON.stringify] is applied at once, so the
    value written is the value at the instant of the call. *)
Inductive Payload : Type :=
| PState (s : AppState)
| PMessage (m : Message).

(** The three shapes of text the server writes to an event stream:
    [retry: N\n\n], [event: E\ndata: JSON\n\n] and [: text\n\n]. *)
Inductive Frame : Type :=
| FRetry (ms : N)
| FEvent (event : string) (data : Payload)
| FComment (text : string).

(** What a call of [res.write] can do: hand the text over, fail without
    raising (a closed or errored stream), or raise. *)
Inductive WriteOutcome : Type :=
| Written
| Failed
| Thrown (message : string).

(** One call of [res.write]. *)
Record WriteCall : Type := {
  wc_res : Res;
  wc_frame : Frame;
  wc_outcome : WriteOutcome
}.

(** A call on the messaging client. *)
Inductive ClientCall : Type :=
| CallGetChats
| CallGetChatById (chatId : string)
| CallFetchMessages (chat : RawChat) (limit : JsNumber)
| CallSendMessage (chatId : string) (message : string).

(** The process: the module-level bindings that change, the streams and
    what has been done to the outside so far. [sseClients] is a [Set]:
    no duplicates, iterated in insertion order. *)
Record World : Type := {
  appState : AppState;
  sseClients : list Res;
  intervals : list Res;             (* streams with a keep-alive timer *)
  writes : list WriteCall;          (* oldest first *)
  calls : list ClientCall;          (* oldest first *)
  stream : Res -> WriteOutcome      (* how each stream answers a write *)
}.

Definition initialWorld (now : string) : World :=
  {| appState := initialState now;
     sseClients := [];
     intervals := [];
     writes := [];
     calls := [];
     stream := fun _ => Written |}.

(** *** Synchronous code: state and exceptions *)

(** How a block of statements ends. An exception leaves the mutations
    made before it in place. *)
Inductive Completion (A : Type) : Type :=
| Normal (a : A)
| Throw (message : string).
Arguments Normal {A} a.
Arguments Throw {A} message.

Definition M (A : Type) : Type := World -> Completion A * World.

Definition ret {A : Type} (a : A) : M A := fun w => (Normal a, w).

Definition bind {A B : Type} (c : M A) (k : A -> M B) : M B :=
  fun w =>
    match c w with
    | (Normal a, w') => k a w'
    | (Throw e, w') => (Throw e, w')
    end.

Declare Scope js_scope.
Delimit Scope js_scope with js.
Notation "x <- c ;; k" := (bind c (fun x => k))
  (at level 100, c at next level, right associativity) : js_scope.
Notation "c ;; k" := (bind c (fun _ => k))
  (at level 100, right associativity) : js_scope.
Local Open Scope js_scope.

Definition exec {A : Type} (c : M A) (w : World) : World := snd (c w).
Definition completion {A : Type} (c : M A) (w : World) : Completion A := fst (c w).

Definition getState : M AppState := fun w => (Normal (appState w), w).

Definition setState (s : AppState) : M unit :=
  fun w =>
    (Normal tt,
     {| appState := s; sseClients := sseClients w; intervals := intervals w;
        writes := writes w; calls := calls w; stream := stream w |}).

Definition getClients : M (list Res) := fun w => (Normal (sseClients w), w).

Definition setClients (l : list Res) : M unit :=
  fun w =>
    (Normal tt,
     {| appState := appState w; sseClients := l; intervals := intervals w;
        writes := writes w; calls := calls w; stream := stream w |}).

Definition setIntervals (l : list Res) : M unit :=
  fun w =>
    (Normal tt,
     {| appState := appState w; sseClients := sseClients w; intervals := l;
        writes := writes w; calls := calls w; stream := stream w |}).

Definition logWrite (c : WriteCall) (w : World) : World :=
  {| appState := appState w; sseClients := sseClients w;
     intervals := intervals w; writes := writes w ++ [c]; calls := calls w;
     stream := stream w |}.

(** [res.write(text)]. *)
Definition write (res : Res) (f : Frame) : M unit :=
  fun w =>
    let o := stream w res in
    let w' := logWrite {| wc_res := res; wc_frame := f; wc_outcome := o |} w in
    match o with
    | Thrown e => (Throw e, w')
    | _ => (Normal tt, w')
    end.

(** [for (const x of xs) body(x)]. *)
Fixpoint forOf {A : Type} (xs : list A) (body : A -> M unit) : M unit :=
  match xs with
  | [] => ret tt
  | x :: rest => body x ;; forOf rest body
  end.

(** [sseClients.add(res)] and [sseClients.delete(res)]. *)
Definition set_add (res : Res) (l : list Res) : list Res :=
  if existsb (Nat.eqb res) l then l else l ++ [res].

Definition set_delete (res : Res) (l : list Res) : list Res :=
  filter (fun x => negb (Nat.eqb res x)) l.

(** [broadcast(event, data)], lines 39-44. *)
Definition broadcast (event : string) (data : Payload) : M unit :=
  let payload := FEvent event data in
  clients <- getClients ;;
  forOf clients (fun res => write res payload).

(** [updateState(partial)], lines 34-37, at the instant [now]. *)
Definition updateState (partial : Partial) (now : string) : M unit :=
  s <- getState ;;
  setState (assign (assign s partial)
              {| p_status := None; p_qr := None; p_info := None;
                 p_authFailure := None; p_disconnectedReason := None;
                 p_lastUpdateAt := Some now |}) ;;
  s' <- getState ;;
  broadcast "state" (PState (publicState s')).

(** ** The lifecycle handlers (lines 116-146) *)

(** [client.info] when the [ready] event fires. *)
Record ClientInfo : Type := {
  ci_pushname : string;
  ci_wid : option string;           (* client.info.wid?._serialized *)
  ci_platform : string
}.

(** The events of the messaging client with the argument each handler
    receives; [Ready] carries [client.info] as it is at that instant. *)
Inductive LifecycleEvent : Type :=
| Qr (code : string)
| Authenticated
| Ready (clientInfo : option ClientInfo)
| AuthFailure (message : option string)
| Disconnected (reason : option string).

Definition on_qr (code : string) : string -> M unit :=
  updateState
    {| p_status := Some "qr"; p_qr := Some (Some code); p_info := None;
       p_authFailure := Some None; p_disconnectedReason := Some None;
       p_lastUpdateAt := None |}.

Definition on_authenticated : string -> M unit :=
  updateState
    {| p_status := Some "authenticated"; p_qr := Some None; p_info := None;
       p_authFailure := Some None; p_disconnectedReason := None;
       p_lastUpdateAt := None |}.

Definition on_ready (clientInfo : option ClientInfo) : string -> M unit :=
  let info :=
    match clientInfo with
    | Some ci =>
        Some {| pushname := ci_pushname ci; wid := ci_wid ci;
                platform := ci_platform ci |}
    | None => None
    end in
  updateState
    {| p_status := Some "ready"; p_qr := Some None; p_info := Some info;
       p_authFailure := Some None; p_disconnectedReason := Some None;
       p_lastUpdateAt := None |}.

Definition on_auth_failure (message : option string) : string -> M unit :=
  updateState
    {| p_status := Some "auth_failure"; p_qr := None; p_info := None;
       p_authFailure := Some (Some (or_string message "Authentication failed"));
       p_disconnectedReason := None; p_lastUpdateAt := None |}.

Definition on_disconnected (reason : option string) : string -> M unit :=
  updateState
    {| p_status := Some "disconnected"; p_qr := None; p_info := None;
       p_authFailure := None;
       p_disconnectedReason := Some (Some (or_string reason "Unknown reason"));
       p_lastUpdateAt := None |}.

(** The handler the client runs for an event, at the instant [now]. *)
Definition on (ev : LifecycleEvent) (now : string) : M unit :=
  match ev with
  | Qr code => on_qr code now
  | Authenticated => on_authenticated now
  | Ready ci => on_ready ci now
  | AuthFailure message => on_auth_failure message now
  | Disconnected reason => on_disconnected reason now
  end.

(** The status each handler writes. *)
Definition statusOf (ev : LifecycleEvent) : string :=
  match ev with
  | Qr _ => "qr"
  | Authenticated => "authenticated"
  | Ready _ => "ready"
  | AuthFailure _ => "auth_failure"
  | Disconnected _ => "disconnected"
  end.

(** The client emits the events one after the other, each with its
    instant; an exception that escapes a handler is the emitter's to
    report and does not stop the next event. *)
Fixpoint replay (evs : list (LifecycleEvent * string)) (w : World) : World :=
  match evs with
  | [] => w
  | (ev, now) :: rest => replay rest (exec (on ev now) w)
  end.

Definition on_message_create (message : RawMessage) : M unit :=
  broadcast "message" (PMessage (serializeMessage message)).

(** The catch of [client.initialize()] (lines 293-300). *)
Definition on_launch_error (message : string) : string -> M unit :=
  updateState
    {| p_status := Some "launch_error"; p_qr := Some None; p_info := None;
       p_authFailure := Some (Some message); p_disconnectedReason := None;
       p_lastUpdateAt := None |}.

(** ** The event-stream endpoint (lines 161-181) *)

Definition subscribe (res : Res) : M unit :=
  write res (FRetry 2000) ;;
  clients <- getClients ;;
  setClients (set_add res clients) ;;
  s <- getState ;;
  write res (FEvent "state" (PState (publicState s))) ;;
  fun w => setIntervals (res :: intervals w) w.

(** One tick of the keep-alive timer of [res]. *)
Definition keepAlive (res : Res) : M unit :=
  write res (FComment "keep-alive").

(** The [close] listener of the request. *)
Definition on_close (res : Res) : M unit :=
  (fun w => setIntervals (set_delete res (intervals w)) w) ;;
  clients <- getClients ;;
  setClients (set_delete res clients).

(** The frames one stream was handed, oldest first. *)
Definition received (res : Res) (w : World) : list Frame :=
  map wc_frame
    (filter (fun c => Nat.eqb (wc_res c) res
                      && match wc_outcome c with Written => true | _ => false end)
       (writes w)).

(** The first named event among frames: retry hints and comments are not
    events. *)
Fixpoint firstEvent (fs : list Frame) : option (string * Payload) :=
  match fs with
  | [] => None
  | FEvent e d :: _ => Some (e, d)
  | _ :: rest => firstEvent rest
  end.

(** ** The HTTP request handler (lines 46-75, 150-269) *)

(** What the handler takes from outside the file: built-ins of the
    language, the environment of the process, the page on disk and the
    answers of the messaging client. *)
Record Env : Type := {
  JSON_parse : string -> option JsValue;        (* None: SyntaxError *)
  Number_of_string : string -> JsNumber;        (* Number(s) for a string s *)
  decodeURIComponent : string -> Fallible string;
  destructureNullMessage : string;              (* message of the TypeError *)
  env_MAX_CHAT_COUNT : option string;           (* process.env.MAX_CHAT_COUNT *)
  indexHtml : Fallible string;                  (* fs.readFileSync(indexHtmlPath) *)
  getChats : Fallible (list RawChat);
  getChatById : string -> Fallible RawChat;
  fetchMessages : RawChat -> JsNumber -> Fallible (list RawMessage);
  sendMessage : string -> string -> Fallible RawMessage
}.

(** [Number(process.env.MAX_CHAT_COUNT || 100)], line 11. *)
Definition MAX_CHAT_COUNT (env : Env) : JsNumber :=
  match env_MAX_CHAT_COUNT env with
  | None => Fin (100 # 1)%Q
  | Some EmptyString => Fin (100 # 1)%Q
  | Some s => Number_of_string env s
  end.

(** What the request stream emits. A [Data] event carries the text that
    [body += chunk] appends for it: the chunk as decoded on its own. The
    texts of this development are ASCII, for which bytes, characters and
    UTF-16 units are the same thing. *)
Inductive ReqEvent : Type :=
| Data (chunk : string)
| End
| Error (message : string).

(** The parts of a request the handler reads: [limit] is
    [parsedUrl.searchParams.get('limit')]. *)
Record Request : Type := {
  method : string;
  pathname : string;
  limit : option string;
  bodyEvents : list ReqEvent
}.

(** The closure of [readBody]: the text so far and the promise, which
    keeps its first settlement. *)
Record Reader : Type := {
  body : string;
  promise : option (Fallible JsValue)
}.

Definition settle (r : Reader) (v : Fallible JsValue) : Reader :=
  {| body := body r;
     promise := match promise r with
                | None => Some v
                | Some first => Some first
                end |}.

Definition resolve (r : Reader) (v : JsValue) : Reader := settle r (Resolved v).
Definition reject (r : Reader) (message : string) : Reader :=
  settle r (Rejected message).

Definition readerStep (env : Env) (r : Reader) (ev : ReqEvent) : Reader :=
  match ev with
  | Data chunk =>
      let r' := {| body := body r ++ chunk; promise := promise r |} in
      if (1000000 <? strlen (body r'))%N then reject r' "Payload too large"
      else r'
  | End =>
      match body r with
      | EmptyString => resolve r (JObj [])
      | _ =>
          match JSON_parse env (body r) with
          | Some v => resolve r v
          | None => reject r "Invalid JSON payload"
          end
      end
  | Error message => reject r message
  end.

(** [readBody(req)]: [None] when the promise never settles. *)
Definition readBody (env : Env) (events : list ReqEvent) : option (Fallible JsValue) :=
  promise (fold_left (readerStep env) events {| body := ""; promise := None |}).

(** The response body passed to [safeJson], by shape. *)
Inductive Body : Type :=
| BError (error : string)                       (* {error} *)
| BState (s : AppState)
| BChats (chats : list Chat)                    (* {chats} *)
| BHistory (chat : Chat) (messages : list Message)
| BSent (message : Message)                     (* {ok: true, message} *)
| BOk.                                          (* {ok: true} *)

(** How a request ends. *)
Inductive Reply : Type :=
| Json (statusCode : Z) (data : Body)
| Html (html : string)
| EventStream
| Pending                                       (* an await that never returns *)
| Unhandled (message : string).                 (* the handler's promise rejects *)

Definition safeJson (statusCode : Z) (data : Body) : M Reply :=
  ret (Json statusCode data).

Definition callClient (c : ClientCall) : M unit :=
  fun w =>
    (Normal tt,
     {| appState := appState w; sseClients := sseClients w;
        intervals := intervals w; writes := writes w; calls := calls w ++ [c];
        stream := stream w |}).

(** [pathname.match(/^\/api\/chats\/([^/]+)\/messages$/)]: the captured
    group. *)
Fixpoint stripPrefix (p s : string) : option string :=
  match p, s with
  | EmptyString, _ => Some s
  | String a p', String b s' => if Ascii.eqb a b then stripPrefix p' s' else None
  | String _ _, EmptyString => None
  end.

Fixpoint spanSegment (s : string) : string * string :=
  match s with
  | EmptyString => ("", "")
  | String c rest =>
      if Ascii.eqb c "/" then ("", s)
      else let (seg, tail) := spanSegment rest in (String c seg, tail)
  end.

Definition messagePathMatch (pathname : string) : option string :=
  match stripPrefix "/api/chats/" pathname with
  | None => None
  | Some rest =>
      let (seg, tail) := spanSegment rest in
      if negb (seg =? "") && (tail =? "/messages") then Some seg else None
  end.

(** Lines 215-218. *)
Definition requestedLimit (env : Env) (limit : option string) : JsNumber :=
  match limit with
  | None => Fin (40 # 1)%Q
  | Some EmptyString => Fin (40 # 1)%Q
  | Some s => Number_of_string env s
  end.

Definition effectiveLimit (env : Env) (limit : option string) : JsNumber :=
  let requested := requestedLimit env limit in
  if isFinite requested
  then Math_max (Fin (1 # 1)%Q) (Math_min requested (Fin (100 # 1)%Q))
  else Fin (40 # 1)%Q.

(** The comparators of lines 197 and 226. *)
Definition byRecency (a b : RawChat) : Z :=
  (or_zero (rc_timestamp b) - or_zero (rc_timestamp a))%Z.

Definition byTime (a b : RawMessage) : Z :=
  (or_zero (rm_timestamp a) - or_zero (rm_timestamp b))%Z.

(** Lines 196-199. *)
Definition sortedChats (env : Env) (chats : list RawChat) : list Chat :=
  map serializeChat (slice0 (sort_by byRecency chats) (MAX_CHAT_COUNT env)).

(** [const { chatId, message } = value]: a property of a parsed value,
    [None] for [undefined]. *)
Fixpoint lookup (k : string) (props : list (string * JsValue)) : option JsValue :=
  match props with
  | [] => None
  | (k', v) :: rest => if k' =? k then Some v else lookup k rest
  end.

Definition prop (v : JsValue) (k : string) : option JsValue :=
  match v with
  | JObj props => lookup k props
  | _ => None
  end.

(** [x && typeof x === 'string']. *)
Definition nonEmptyString (x : option JsValue) : option string :=
  match x with
  | Some (JStr EmptyString) => None
  | Some (JStr s) => Some s
  | _ => None
  end.

(** The catch of lines 256-259. *)
Definition sendFailure (message : string) : M Reply :=
  let statusCode := if includes message "JSON" then 400%Z else 500%Z in
  safeJson statusCode (BError message).

(** The handler of [http.createServer], for the request [req] answered on
    [res]. The handler reads [appState] only before its first await, so
    what runs between its awaits does not change its reply. *)
Definition server (env : Env) (req : Request) (res : Res) : M Reply :=
  if (method req =? "GET") && (pathname req =? "/") then
    match indexHtml env with
    | Resolved html => ret (Html html)
    | Rejected e => ret (Unhandled e)
    end
  else if (method req =? "GET") && (pathname req =? "/events") then
    subscribe res ;; ret EventStream
  else if (method req =? "GET") && (pathname req =? "/api/state") then
    s <- getState ;; safeJson 200 (BState (publicState s))
  else if (method req =? "GET") && (pathname req =? "/api/chats") then
    s <- getState ;;
    if negb (status s =? "ready")
    then safeJson 409 (BError "Client is not ready yet.")
    else
      callClient CallGetChats ;;
      match getChats env with
      | Resolved chats => safeJson 200 (BChats (sortedChats env chats))
      | Rejected e => safeJson 500 (BError e)
      end
  else
  match (if method req =? "GET" then messagePathMatch (pathname req) else None) with
  | Some group =>
    s <- getState ;;
    if negb (status s =? "ready")
    then safeJson 409 (BError "Client is not ready yet.")
    else
      match decodeURIComponent env group with
      | Rejected e => ret (Unhandled e)
      | Resolved chatId =>
          let limit := effectiveLimit env (limit req) in
          callClient (CallGetChatById chatId) ;;
          match getChatById env chatId with
          | Rejected e => safeJson 500 (BError e)
          | Resolved chat =>
              callClient (CallFetchMessages chat limit) ;;
              match fetchMessages env chat limit with
              | Rejected e => safeJson 500 (BError e)
              | Resolved messages =>
                  safeJson 200
                    (BHistory (serializeChat chat)
                       (map serializeMessage (sort_by byTime messages)))
              end
          end
      end
  | None =>
  if (method req =? "POST") && (pathname req =? "/api/send") then
    s <- getState ;;
    if negb (status s =? "ready")
    then safeJson 409 (BError "Client is not ready yet.")
    else
      match readBody env (bodyEvents req) with
      | None => ret Pending
      | Some (Rejected e) => sendFailure e
      | Some (Resolved JNull) => sendFailure (destructureNullMessage env)
      | Some (Resolved parsed) =>
          match nonEmptyString (prop parsed "chatId") with
          | None => safeJson 400 (BError "chatId is required.")
          | Some chatId =>
              match nonEmptyString (prop parsed "message") with
              | None => safeJson 400 (BError "message is required.")
              | Some message =>
                  callClient (CallSendMessage chatId message) ;;
                  match sendMessage env chatId message with
                  | Resolved sent => safeJson 200 (BSent (serializeMessage sent))
                  | Rejected e => sendFailure e
                  end
              end
          end
      end
  else if (method req =? "GET") && (pathname req =? "/health") then
    safeJson 200 BOk
  else
    safeJson 404 (BError "Not found")
  end.

(** ** Vocabulary of the statements *)

(** The streams a loop of writes over [l] reaches: all of them up to and
    including the first whose write raises. *)
Fixpoint reached (st : Res -> WriteOutcome) (l : list Res) : list Res :=
  match l with
  | [] => []
  | res :: rest =>
      match st res with
      | Thrown _ => [res]
      | _ => res :: reached st rest
      end
  end.

(** How that loop ends. *)
Fixpoint loopEnd (st : Res -> WriteOutcome) (l : list Res) : Completion unit :=
  match l with
  | [] => Normal tt
  | res :: rest =>
      match st res with
      | Thrown e => Throw e
      | _ => loopEnd st rest
      end
  end.

(** The call of [res.write] that hands [f] to [res] in the world [w]. *)
Definition callOn (w : World) (f : Frame) (res : Res) : WriteCall :=
  {| wc_res := res; wc_frame := f; wc_outcome := stream w res |}.

Definition addWrites (cs : list WriteCall) (w : World) : World :=
  {| appState := appState w; sseClients := sseClients w;
     intervals := intervals w; writes := writes w ++ cs; calls := calls w;
     stream := stream w |}.

Definition withState (s : AppState) (w : World) : World :=
  {| appState := s; sseClients := sseClients w; intervals := intervals w;
     writes := writes w; calls := calls w; stream := stream w |}.

(** [updateState]'s new state. *)
Definition stamped (s : AppState) (partial : Partial) (now : string) : AppState :=
  {| status := overwrite (status s) (p_status partial);
     qr := overwrite (qr s) (p_qr partial);
     info := overwrite (info s) (p_info partial);
     authFailure := overwrite (authFailure s) (p_authFailure partial);
     disconnectedReason :=
       overwrite (disconnectedReason s) (p_disconnectedReason partial);
     lastUpdateAt := now |}.

(** A body of [n] characters, built without writing it out. *)
Definition filler (n : N) : string := N.iter n (String "a") "".

(** ** A concrete environment, to run the handler *)

Module Demo.

Definition dquote : ascii := ascii_of_nat 34.
Definition quoted (s : string) : string :=
  String dquote (s ++ String dquote "").

Definition digitOf (c : ascii) : option Z :=
  let n := Z.of_nat (nat_of_ascii c) in
  if ((48 <=? n) && (n <=? 57))%Z then Some (n - 48)%Z else None.

Fixpoint digitsValue (acc : Z) (s : string) : option Z :=
  match s with
  | EmptyString => Some acc
  | String c rest =>
      match digitOf c with
      | Some d => digitsValue (10 * acc + d)%Z rest
      | None => None
      end
  end.

(** [Number(s)] on signed decimal integers, the empty string and
    [Infinity]; every other text is taken as not a number. *)
Definition number (s : string) : JsNumber :=
  match s with
  | EmptyString => Fin (0 # 1)%Q
  | String "-" EmptyString => NaN
  | String "-" rest =>
      match digitsValue 0 rest with
      | Some z => Fin (inject_Z (- z))
      | None => NaN
      end
  | _ =>
      if s =? "Infinity" then PosInfinity
      else match digitsValue 0 s with
           | Some z => Fin (inject_Z z)
           | None => NaN
           end
  end.

Fixpoint scanString (s : string) : option (string * string) :=
  match s with
  | EmptyString => None
  | String c rest =>
      if Ascii.eqb c dquote then Some ("", rest)
      else if Ascii.eqb c "\" then None
      else match scanString rest with
           | Some (str, tail) => Some (String c str, tail)
           | None => None
           end
  end.

Fixpoint scanDigits (s : string) : string * string :=
  match s with
  | EmptyString => ("", "")
  | String c rest =>
      match digitOf c with
      | Some _ => let (ds, tail) := scanDigits rest in (String c ds, tail)
      | None => ("", s)
      end
  end.

Definition setProp (k : string) (v : JsValue) (props : list (string * JsValue))
  : list (string * JsValue) :=
  filter (fun kv => negb (fst kv =? k)) props ++ [(k, v)].

(** [JSON.parse] on compact texts: no white space, no escapes in strings,
    numbers as unsigned decimal integers. *)
Fixpoint parseValue (fuel : nat) (s : string) : option (JsValue * string) :=
  match fuel with
  | O => None
  | S fuel' =>
      match s with
      | EmptyString => None
      | String c rest =>
          if Ascii.eqb c dquote then
            match scanString rest with
            | Some (str, tail) => Some (JStr str, tail)
            | None => None
            end
          else if Ascii.eqb c "{" then
            match rest with
            | String "}" tail => Some (JObj [], tail)
            | _ => parseMembers fuel' rest []
            end
          else if Ascii.eqb c "[" then
            match rest with
            | String "]" tail => Some (JArr [], tail)
            | _ => parseItems fuel' rest []
            end
          else
            match stripPrefix "null" s, stripPrefix "true" s, stripPrefix "false" s with
            | Some tail, _, _ => Some (JNull, tail)
            | _, Some tail, _ => Some (JBool true, tail)
            | _, _, Some tail => Some (JBool false, tail)
            | _, _, _ =>
                match scanDigits s with
                | (EmptyString, _) => None
                | (ds, tail) =>
                    match digitsValue 0 ds with
                    | Some z => Some (JNum (Fin (inject_Z z)), tail)
                    | None => None
                    end
                end
            end
      end
  end
with parseMembers (fuel : nat) (s : string) (acc : list (string * JsValue))
  : option (JsValue * string) :=
  match fuel with
  | O => None
  | S fuel' =>
      match s with
      | String c rest =>
          if Ascii.eqb c dquote then
            match scanString rest with
            | Some (k, String ":" afterColon) =>
                match parseValue fuel' afterColon with
                | Some (v, String "," more) => parseMembers fuel' more (setProp k v acc)
                | Some (v, String "}" tail) => Some (JObj (setProp k v acc), tail)
                | _ => None
                end
            | _ => None
            end
          else None
      | EmptyString => None
      end
  end
with parseItems (fuel : nat) (s : string) (acc : list JsValue)
  : option (JsValue * string) :=
  match fuel with
  | O => None
  | S fuel' =>
      match parseValue fuel' s with
      | Some (v, String "," more) => parseItems fuel' more (acc ++ [v])
      | Some (v, String "]" tail) => Some (JArr (acc ++ [v]), tail)
      | _ => None
      end
  end.

Definition parse (s : string) : option JsValue :=
  match parseValue (S (String.length s)) s with
  | Some (v, EmptyString) => Some v
  | _ => None
  end.

(** [decodeURIComponent] on texts without escapes; a text with a percent
    sign is refused here, well-formed or not. *)
Definition decode (s : string) : Fallible string :=
  if includes s "%" then Rejected "URI malformed" else Resolved s.

Definition chat (id : string) (timestamp : option Z) : RawChat :=
  {| rc_id := id ++ "@c.us"; rc_user := id; rc_name := None;
     rc_formattedTitle := None; rc_isGroup := None; rc_unreadCount := None;
     rc_timestamp := timestamp; rc_lastMessageBody := None;
     rc_archived := None; rc_pinned := None |}.

Definition message (to body : string) : RawMessage :=
  {| rm_id := "true_" ++ to ++ "_3EB0"; rm_fromMe := Some true;
     rm_from := "me@c.us"; rm_to := to; rm_body := Some body;
     rm_type := "chat"; rm_author := None; rm_notifyName := None;
     rm_timestamp := Some 1700000000%Z; rm_hasMedia := Some false;
     rm_ack := Some 0%Z |}.

Definition threeChats : list RawChat :=
  [chat "a" (Some 5%Z); chat "b" None; chat "c" (Some 3%Z)].

Definition env : Env :=
  {| JSON_parse := parse;
     Number_of_string := number;
     decodeURIComponent := decode;
     destructureNullMessage :=
       "Cannot destructure property 'chatId' of '(intermediate value)' as it is null.";
     env_MAX_CHAT_COUNT := None;
     indexHtml := Resolved "<!doctype html>";
     getChats := Resolved threeChats;
     getChatById := fun id => Resolved (chat id (Some 5%Z));
     fetchMessages := fun _ _ => Resolved [];
     sendMessage := fun to body => Resolved (message to body) |}.

(** The client with every call failing for [reason]. *)
Definition offline (reason : string) : Env :=
  {| JSON_parse := parse;
     Number_of_string := number;
     decodeURIComponent := decode;
     destructureNullMessage :=
       "Cannot destructure property 'chatId' of '(intermediate value)' as it is null.";
     env_MAX_CHAT_COUNT := None;
     indexHtml := Resolved "<!doctype html>";
     getChats := Rejected reason;
     getChatById := fun _ => Rejected reason;
     fetchMessages := fun _ _ => Rejected reason;
     sendMessage := fun _ _ => Rejected reason |}.

Definition messageAt (timestamp : Z) : RawMessage :=
  {| rm_id := "false_1@c.us_3EB0"; rm_fromMe := Some false;
     rm_from := "1@c.us"; rm_to := "me@c.us"; rm_body := Some "hello";
     rm_type := "chat"; rm_author := None; rm_notifyName := Some "One";
     rm_timestamp := Some timestamp; rm_hasMedia := None;
     rm_ack := None |}.

(** The client with the given messages in every chat. *)
Definition history (messages : list RawMessage) : Env :=
  {| JSON_parse := parse;
     Number_of_string := number;
     decodeURIComponent := decode;
     destructureNullMessage :=
       "Cannot destructure property 'chatId' of '(intermediate value)' as it is null.";
     env_MAX_CHAT_COUNT := None;
     indexHtml := Resolved "<!doctype html>";
     getChats := Resolved threeChats;
     getChatById := fun id => Resolved (chat id (Some 5%Z));
     fetchMessages := fun _ _ => Resolved messages;
     sendMessage := fun to body => Resolved (message to body) |}.

(** The process with the variable [MAX_CHAT_COUNT] set to [value]. *)
Definition capped (value : string) : Env :=
  {| JSON_parse := parse;
     Number_of_string := number;
     decodeURIComponent := decode;
     destructureNullMessage :=
       "Cannot destructure property 'chatId' of '(intermediate value)' as it is null.";
     env_MAX_CHAT_COUNT := Some value;
     indexHtml := Resolved "<!doctype html>";
     getChats := Resolved threeChats;
     getChatById := fun id => Resolved (chat id (Some 5%Z));
     fetchMessages := fun _ _ => Resolved [];
     sendMessage := fun to body => Resolved (message to body) |}.

Definition get (path : string) (limit : option string) : Request :=
  {| method := "GET"; pathname := path; limit := limit; bodyEvents := [End] |}.

Definition post (path : string) (events : list ReqEvent) : Request :=
  {| method := "POST"; pathname := path; limit := None; bodyEvents := events |}.

Definition t0 : string := "2024-01-01T00:00:00.000Z".
Definition t1 : string := "2024-01-01T00:00:01.000Z".
Definition t2 : string := "2024-01-01T00:00:02.000Z".
Definition t3 : string := "2024-01-01T00:00:03.000Z".

Definition me : ClientInfo :=
  {| ci_pushname := "Me"; ci_wid := Some "me@c.us"; ci_platform := "android" |}.

(** The process once the client is ready, with no stream attached. *)
Definition readyWorld : World :=
  replay [(Qr "2@abc", t1); (Authenticated, t2); (Ready (Some me), t3)]
    (initialWorld t0).

(** Streams 1, 2 and 3 attached; the write of stream 2 answers [o]. *)
Definition fanout (o : WriteOutcome) : World :=
  {| appState := initialState t0;
     sseClients := [1; 2; 3];
     intervals := [3; 2; 1];
     writes := [];
     calls := [];
     stream := fun res => if Nat.eqb res 2 then o else Written |}.

End Demo.

(** ** The process as a run of callbacks *)

(** What the event loop can run next. A keep-alive timer and the close
    listener of an event-stream request exist from the end of the
    [/events] branch until the close listener has run; [Peer] is the
    outside changing how a stream answers its writes. *)
Inductive Action : Type :=
| Emit (ev : LifecycleEvent) (now : string)
| LaunchError (message : string) (now : string)
| MessageCreate (message : RawMessage)
| Incoming (req : Request) (res : Res)
| Close (res : Res)
| Tick (res : Res)
| Peer (res : Res) (o : WriteOutcome).

Definition setStream (res : Res) (o : WriteOutcome) (w : World) : World :=
  {| appState := appState w; sseClients := sseClients w;
     intervals := intervals w; writes := writes w; calls := calls w;
     stream := fun r => if Nat.eqb r res then o else stream w r |}.

Definition step (env : Env) (a : Action) (w : World) : World :=
  match a with
  | Emit ev now => exec (on ev now) w
  | LaunchError message now => exec (on_launch_error message now) w
  | MessageCreate message => exec (on_message_create message) w
  | Incoming req res => exec (server env req res) w
  | Close res =>
      if existsb (Nat.eqb res) (intervals w) then exec (on_close res) w else w
  | Tick res =>
      if existsb (Nat.eqb res) (intervals w) then exec (keepAlive res) w else w
  | Peer res o => setStream res o w
  end.

Fixpoint run (env : Env) (actions : list Action) (w : World) : World :=
  match actions with
  | [] => w
  | a :: rest => run env rest (step env a w)
  end.

(** The values [status] is ever given in the file. *)
Definition statuses : list string :=
  ["starting"; "qr"; "authenticated"; "ready"; "auth_failure";
   "disconnected"; "launch_error"].

(** The calls of [res.write] made on one stream, whatever their outcome. *)
Definition writesTo (res : Res) (w : World) : list WriteCall :=
  filter (fun c => Nat.eqb (wc_res c) res) (writes w).

Definition addCalls (cs : list ClientCall) (w : World) : World :=
  {| appState := appState w; sseClients := sseClients w;
     intervals := intervals w; writes := writes w; calls := calls w ++ cs;
     stream := stream w |}.

(** Text whose characters are all ASCII (codes below 128): such text is
    cut into chunks and decoded chunk by chunk without change. *)
Definition isAscii (s : string) : bool :=
  forallb (fun c => (N_of_ascii c <? 128)%N) (list_ascii_of_string s).

(** What [slice(0, MAX_CHAT_COUNT)] keeps of a list of [n] sorted chats. *)
Definition keptChats (env : Env) (n : nat) (sorted : list RawChat) : list RawChat :=
  match MAX_CHAT_COUNT env with
  | Fin q =>
      if (truncate q <? 0)%Z
      then firstn (n - Z.to_nat (- truncate q)) sorted
      else firstn (Z.to_nat (truncate q)) sorted
  | PosInfinity => sorted
  | _ => []
  end.

(** The fields of a projected chat, each read off the library's chat. *)
Definition projects (raw : RawChat) (c : Chat) : Prop :=
  c_id c = rc_id raw
  /\ c_name c
     = match rc_name raw, rc_formattedTitle raw with
       | Some (String a n), _ => String a n
       | _, Some (String a t) => String a t
       | _, _ => rc_user raw
       end
  /\ c_isGroup c = match rc_isGroup raw with Some b => b | None => false end
  /\ c_unreadCount c = match rc_unreadCount raw with Some n => n | None => 0%Z end
  /\ c_timestamp c
     = match rc_timestamp raw with
       | Some 0%Z => None
       | Some t => Some t
       | None => None
       end
  /\ c_lastMessageBody c
     = match rc_lastMessageBody raw with Some b => b | None => "" end
  /\ c_archived c = match rc_archived raw with Some b => b | None => false end
  /\ c_pinned c = match rc_pinned raw with Some b => b | None => false end.

(** * Properties *)

(** ** How the synchronous operations run *)

Lemma addWrites_nil (w : World) : addWrites [] w = w.
Proof. destruct w; unfold addWrites; simpl; now rewrite app_nil_r. Qed.

Lemma addWrites_addWrites (cs1 cs2 : list WriteCall) (w : World) :
  addWrites cs2 (addWrites cs1 w) = addWrites (cs1 ++ cs2) w.
Proof. unfold addWrites; simpl; now rewrite app_assoc. Qed.

Lemma logWrite_addWrites (c : WriteCall) (w : World) :
  logWrite c w = addWrites [c] w.
Proof. reflexivity. Qed.

Lemma publicState_id (s : AppState) : publicState s = s.
Proof. now destruct s. Qed.

Lemma assign_stamp (s : AppState) (partial : Partial) (now : string) :
  assign (assign s partial)
    {| p_status := None; p_qr := None; p_info := None; p_authFailure := None;
       p_disconnectedReason := None; p_lastUpdateAt := Some now |}
  = stamped s partial now.
Proof. reflexivity. Qed.

(** The loop of [broadcast] over any list of streams. *)
Lemma forOf_write (f : Frame) (l : list Res) (w : World) :
  forOf l (fun res => write res f) w
  = (loopEnd (stream w) l,
     addWrites (map (callOn w f) (reached (stream w) l)) w).
Proof.
  revert w; induction l as [|res rest IH]; intro w; simpl.
  - unfold ret; now rewrite addWrites_nil.
  - unfold bind, write at 1.
    destruct (stream w res) eqn:Hres.
    + rewrite IH, logWrite_addWrites, addWrites_addWrites; simpl.
      unfold callOn at 2; simpl; now rewrite Hres.
    + rewrite IH, logWrite_addWrites, addWrites_addWrites; simpl.
      unfold callOn at 2; simpl; now rewrite Hres.
    + rewrite logWrite_addWrites; simpl. unfold callOn; now rewrite Hres.
Qed.

Lemma broadcast_run (event : string) (data : Payload) (w : World) :
  broadcast event data w
  = (loopEnd (stream w) (sseClients w),
     addWrites (map (callOn w (FEvent event data))
                  (reached (stream w) (sseClients w))) w).
Proof. unfold broadcast, bind, getClients; apply forOf_write. Qed.

Lemma updateState_run (partial : Partial) (now : string) (w : World) :
  updateState partial now w
  = (loopEnd (stream w) (sseClients w),
     addWrites
       (map (callOn w (FEvent "state"
                         (PState (publicState (stamped (appState w) partial now)))))
          (reached (stream w) (sseClients w)))
       (withState (stamped (appState w) partial now) w)).
Proof.
  unfold updateState, bind, getState, setState; simpl.
  rewrite assign_stamp, broadcast_run; reflexivity.
Qed.

(** The streams reached are all of them when no write raises. *)
Lemma reached_all (st : Res -> WriteOutcome) (l : list Res) :
  (forall res e, In res l -> st res <> Thrown e) -> reached st l = l.
Proof.
  induction l as [|res rest IH]; intro H; simpl; [reflexivity|].
  destruct (st res) eqn:Hres.
  - f_equal; apply IH; intros r e Hr; apply H; now right.
  - f_equal; apply IH; intros r e Hr; apply H; now right.
  - exfalso; apply (H res message); [now left | assumption].
Qed.

(** They stop at the first stream whose write raises. *)
Lemma reached_until_throw (st : Res -> WriteOutcome) (before after : list Res)
    (res : Res) (e : string) :
  (forall r e', In r before -> st r <> Thrown e') ->
  st res = Thrown e ->
  reached st (before ++ res :: after) = before ++ [res]
  /\ loopEnd st (before ++ res :: after) = Throw e.
Proof.
  intros Hb Hres; induction before as [|b before IH]; simpl.
  - now rewrite Hres.
  - assert (IH' := IH (fun r e' Hr => Hb r e' (or_intror Hr))).
    destruct IH' as [IH1 IH2].
    destruct (st b) eqn:Hbst.
    + now rewrite IH1, IH2.
    + now rewrite IH1, IH2.
    + exfalso; apply (Hb b message); [now left | assumption].
Qed.

Lemma loopEnd_normal (st : Res -> WriteOutcome) (l : list Res) :
  (forall res e, In res l -> st res <> Thrown e) -> loopEnd st l = Normal tt.
Proof.
  induction l as [|res rest IH]; intro H; simpl; [reflexivity|].
  destruct (st res) eqn:Hres.
  - apply IH; intros r e Hr; apply H; now right.
  - apply IH; intros r e Hr; apply H; now right.
  - exfalso; apply (H res message); [now left | assumption].
Qed.

(** ** The store and its broadcast *)

(** C3. Every call of [updateState], whatever the partial, leaves the
    state merged with the partial and stamped with the current instant
    (also when the partial names [lastUpdateAt] itself), and makes exactly
    the writes of one [state] broadcast after the mutation: one write per
    stream reached, each carrying the full state as it is after the
    mutation, and no other write. The streams reached are all the
    registered ones when no write raises. *)
Theorem updateState_broadcasts_new_state_once
    (w : World) (partial : Partial) (now : string) :
  let w' := exec (updateState partial now) w in
  let snapshot := publicState (appState w') in
  appState w' = stamped (appState w) partial now
  /\ lastUpdateAt (appState w') = now
  /\ snapshot = appState w'
  /\ sseClients w' = sseClients w
  /\ writes w'
     = writes w
       ++ map (callOn w (FEvent "state" (PState snapshot)))
            (reached (stream w) (sseClients w))
  /\ ((forall res e, In res (sseClients w) -> stream w res <> Thrown e) ->
      writes w'
      = writes w
        ++ map (callOn w (FEvent "state" (PState snapshot))) (sseClients w)).
Proof.
  unfold exec; rewrite updateState_run; simpl.
  repeat (split; [reflexivity|]).
  intro Hok. now rewrite (reached_all _ _ Hok).
Qed.

Lemma updateState_broadcasts_new_state_once_witness :
  writes (exec (updateState
                  {| p_status := Some "qr"; p_qr := Some (Some "2@abc");
                     p_info := None; p_authFailure := None;
                     p_disconnectedReason := None;
                     p_lastUpdateAt := Some "stale" |} Demo.t1)
            (Demo.fanout Failed))
  = map (callOn (Demo.fanout Failed)
           (FEvent "state"
              (PState {| status := "qr"; qr := Some "2@abc"; info := None;
                         authFailure := None; disconnectedReason := None;
                         lastUpdateAt := Demo.t1 |})))
      [1; 2; 3].
Proof.
  apply (updateState_broadcasts_new_state_once (Demo.fanout Failed)
           {| p_status := Some "qr"; p_qr := Some (Some "2@abc");
              p_info := None; p_authFailure := None;
              p_disconnectedReason := None;
              p_lastUpdateAt := Some "stale" |} Demo.t1).
  intros res e [<-|[<-|[<-|[]]]]; simpl; discriminate.
Defined.

(** C4, as the specification has it, fails where the write of stream 2
    raises: stream 3, registered and healthy, is handed nothing, and
    stream 2 is still registered afterwards. *)
Lemma broadcast_does_not_isolate_a_throwing_stream :
  ~ ((forall res,
        In res (sseClients (Demo.fanout (Thrown "EPIPE"))) ->
        stream (Demo.fanout (Thrown "EPIPE")) res = Written ->
        In (FEvent "state" (PState (initialState Demo.t0)))
          (received res
             (exec (broadcast "state" (PState (initialState Demo.t0)))
                (Demo.fanout (Thrown "EPIPE")))))
     /\ (forall res,
           In res (sseClients (Demo.fanout (Thrown "EPIPE"))) ->
           stream (Demo.fanout (Thrown "EPIPE")) res <> Written ->
           ~ In res
               (sseClients
                  (exec (broadcast "state" (PState (initialState Demo.t0)))
                     (Demo.fanout (Thrown "EPIPE")))))).
Proof.
  intros [Hdeliver _].
  specialize (Hdeliver 3).
  vm_compute in Hdeliver.
  apply Hdeliver; [right; right; left; reflexivity | reflexivity].
Qed.

(** ** Joining the event stream *)

Lemma writes_on (ev : LifecycleEvent) (now : string) (w : World) :
  exists cs, writes (exec (on ev now) w) = writes w ++ cs.
Proof.
  destruct ev; unfold on, on_qr, on_authenticated, on_ready, on_auth_failure,
    on_disconnected, exec; rewrite updateState_run; simpl; eauto.
Qed.

Lemma writes_replay (evs : list (LifecycleEvent * string)) (w : World) :
  exists cs, writes (replay evs w) = writes w ++ cs.
Proof.
  revert w; induction evs as [|[ev now] rest IH]; intro w; simpl.
  - exists []; now rewrite app_nil_r.
  - destruct (IH (exec (on ev now) w)) as [cs2 H2].
    destruct (writes_on ev now w) as [cs1 H1].
    exists (cs1 ++ cs2); now rewrite H2, H1, app_assoc.
Qed.

Lemma received_replay (res : Res) (evs : list (LifecycleEvent * string)) (w : World) :
  exists fs, received res (replay evs w) = received res w ++ fs.
Proof.
  destruct (writes_replay evs w) as [cs H].
  unfold received; rewrite H, filter_app, map_app; eauto.
Qed.

Lemma firstEvent_app (fs more : list Frame) (x : string * Payload) :
  firstEvent fs = Some x -> firstEvent (fs ++ more) = Some x.
Proof.
  induction fs as [|f fs IH]; simpl; [discriminate|].
  destruct f; auto.
Qed.

Lemma subscribe_run (res : Res) (w : World) :
  stream w res = Written ->
  subscribe res w
  = (Normal tt,
     {| appState := appState w;
        sseClients := set_add res (sseClients w);
        intervals := res :: intervals w;
        writes := writes w
                  ++ [callOn w (FRetry 2000) res;
                      callOn w (FEvent "state" (PState (publicState (appState w)))) res];
        calls := calls w;
        stream := stream w |}).
Proof.
  intro H. unfold subscribe, bind, write, getClients, setClients, getState,
    setIntervals, logWrite, callOn; simpl.
  repeat (rewrite H; simpl). now rewrite <- app_assoc.
Qed.

Lemma server_events (env : Env) (w : World) (req : Request) (res : Res) :
  method req = "GET" -> pathname req = "/events" ->
  stream w res = Written ->
  server env req res w = (Normal EventStream, exec (subscribe res) w).
Proof.
  intros Hm Hp Hok. unfold server, exec. rewrite Hm, Hp; simpl.
  unfold bind. now rewrite (subscribe_run res w Hok).
Qed.

(** C9. A stream that opens [GET /events], fresh and accepting writes, in
    any world, in particular after any run [before] of lifecycle events and
    their broadcasts, is handed the retry hint and then the [state] event
    with the state as it is at that instant, within the handler's own
    synchronous run; that event is the first named event of the stream, and
    stays so whatever events follow. *)
Theorem subscribe_sends_current_state_first
    (env : Env) (w0 : World) (before after : list (LifecycleEvent * string))
    (req : Request) (res : Res) :
  let w := replay before w0 in
  let w' := exec (server env req res) w in
  method req = "GET" -> pathname req = "/events" ->
  stream w res = Written ->
  received res w = [] ->
  completion (server env req res) w = Normal EventStream
  /\ received res w'
     = [FRetry 2000; FEvent "state" (PState (publicState (appState w)))]
  /\ In res (sseClients w')
  /\ firstEvent (received res (replay after w'))
     = Some ("state", PState (publicState (appState w))).
Proof.
  intros w w' Hm Hp Hok Hfresh.
  assert (Hrun := server_events env w req res Hm Hp Hok).
  assert (Hw' : w' = exec (subscribe res) w) by (unfold w', exec at 1; now rewrite Hrun).
  assert (Hrecv : received res w'
                  = [FRetry 2000; FEvent "state" (PState (publicState (appState w)))]).
  { rewrite Hw'. unfold exec; rewrite (subscribe_run res w Hok); simpl.
    unfold received in *; simpl.
    rewrite filter_app, map_app, Hfresh; simpl.
    unfold callOn; simpl. rewrite Nat.eqb_refl, Hok; reflexivity. }
  split; [unfold completion; now rewrite Hrun|].
  split; [exact Hrecv|]. split.
  - rewrite Hw'. unfold exec; rewrite (subscribe_run res w Hok); simpl.
    unfold set_add. destruct (existsb (Nat.eqb res) (sseClients w)) eqn:Hin.
    + apply existsb_exists in Hin. destruct Hin as [x [Hx Heq]].
      apply Nat.eqb_eq in Heq; now subst.
    + apply in_or_app; right; now left.
  - destruct (received_replay res after w') as [fs Hfs].
    rewrite Hfs; apply firstEvent_app; rewrite Hrecv; reflexivity.
Qed.

Lemma subscribe_sends_current_state_first_witness :
  received 9
    (exec (server Demo.env (Demo.get "/events" None) 9)
       (replay [(Qr "2@abc", Demo.t1); (Authenticated, Demo.t2)]
          (Demo.fanout Failed)))
  = [FRetry 2000;
     FEvent "state"
       (PState {| status := "authenticated"; qr := None; info := None;
                  authFailure := None; disconnectedReason := None;
                  lastUpdateAt := Demo.t2 |})]
  /\ firstEvent
       (received 9
          (replay [(Ready (Some Demo.me), Demo.t3)]
             (exec (server Demo.env (Demo.get "/events" None) 9)
                (replay [(Qr "2@abc", Demo.t1); (Authenticated, Demo.t2)]
                   (Demo.fanout Failed)))))
     = Some ("state",
             PState {| status := "authenticated"; qr := None; info := None;
                       authFailure := None; disconnectedReason := None;
                       lastUpdateAt := Demo.t2 |}).
Proof.
  destruct (subscribe_sends_current_state_first Demo.env (Demo.fanout Failed)
              [(Qr "2@abc", Demo.t1); (Authenticated, Demo.t2)]
              [(Ready (Some Demo.me), Demo.t3)]
              (Demo.get "/events" None) 9
              eq_refl eq_refl eq_refl eq_refl)
    as [_ [Hrecv [_ Hfirst]]].
  split; [exact Hrecv | exact Hfirst].
Defined.

(** ** The lifecycle handlers *)

Lemma replay_app (evs1 evs2 : list (LifecycleEvent * string)) (w : World) :
  replay (evs1 ++ evs2) w = replay evs2 (replay evs1 w).
Proof.
  revert w; induction evs1 as [|[ev now] rest IH]; intro w; simpl; auto.
Qed.

Lemma appState_updateState (partial : Partial) (now : string) (w : World) :
  appState (exec (updateState partial now) w) = stamped (appState w) partial now.
Proof. unfold exec; now rewrite updateState_run. Qed.

(** C2, as the code has it. After any run of lifecycle events from any
    state, the status is the one the last event implies and the fields the
    last handler names hold what it wrote: the code and no failure or
    disconnect reason after [qr]; no code and no failure after
    [authenticated]; no code, no failure, no disconnect reason and the
    client's info after [ready]; the message or its default text after
    [auth_failure]; the reason or its default text after [disconnected].
    [info] is written by [ready] only. *)
Theorem replay_status_and_named_fields
    (w0 : World) (evs : list (LifecycleEvent * string))
    (ev : LifecycleEvent) (now : string) :
  let prev := appState (replay evs w0) in
  let s := appState (replay (evs ++ [(ev, now)]) w0) in
  status s = statusOf ev
  /\ lastUpdateAt s = now
  /\ match ev with
     | Qr code =>
         qr s = Some code /\ authFailure s = None
         /\ disconnectedReason s = None /\ info s = info prev
     | Authenticated =>
         qr s = None /\ authFailure s = None /\ info s = info prev
     | Ready ci =>
         qr s = None /\ authFailure s = None /\ disconnectedReason s = None
         /\ info s = match ci with
                     | Some i => Some {| pushname := ci_pushname i;
                                         wid := ci_wid i;
                                         platform := ci_platform i |}
                     | None => None
                     end
     | AuthFailure message =>
         authFailure s = Some (or_string message "Authentication failed")
         /\ info s = info prev
     | Disconnected reason =>
         disconnectedReason s = Some (or_string reason "Unknown reason")
         /\ info s = info prev
     end.
Proof.
  intros prev s; unfold s, prev; rewrite replay_app; simpl.
  destruct ev; unfold on, on_qr, on_authenticated, on_ready, on_auth_failure,
    on_disconnected; rewrite appState_updateState; simpl;
    repeat split; reflexivity.
Qed.

(** C2, as the specification has it, fails after [ready], [qr] and then
    [disconnected]: the status is [disconnected] while the code and the
    info of the earlier events are still in the state. *)
Lemma replay_leaves_stale_fields :
  ~ (status (appState (replay [(Ready (Some Demo.me), Demo.t1);
                               (Qr "2@abc", Demo.t2);
                               (Disconnected None, Demo.t3)]
                         (initialWorld Demo.t0))) = "disconnected"
     /\ (qr (appState (replay [(Ready (Some Demo.me), Demo.t1);
                               (Qr "2@abc", Demo.t2);
                               (Disconnected None, Demo.t3)]
                         (initialWorld Demo.t0))) <> None ->
         status (appState (replay [(Ready (Some Demo.me), Demo.t1);
                                   (Qr "2@abc", Demo.t2);
                                   (Disconnected None, Demo.t3)]
                             (initialWorld Demo.t0))) = "qr")
     /\ (info (appState (replay [(Ready (Some Demo.me), Demo.t1);
                                 (Qr "2@abc", Demo.t2);
                                 (Disconnected None, Demo.t3)]
                           (initialWorld Demo.t0))) <> None ->
         status (appState (replay [(Ready (Some Demo.me), Demo.t1);
                                   (Qr "2@abc", Demo.t2);
                                   (Disconnected None, Demo.t3)]
                             (initialWorld Demo.t0))) = "ready")).
Proof.
  vm_compute. intros [_ [Hqr _]].
  assert (H : "disconnected" = "qr") by (apply Hqr; discriminate).
  discriminate H.
Qed.

(** ** Routing *)

Lemma stripPrefix_Some (p s rest : string) :
  stripPrefix p s = Some rest -> s = (p ++ rest)%string.
Proof.
  revert s; induction p as [|a p IH]; intros s H; simpl in *.
  - now inversion H.
  - destruct s as [|b s]; [discriminate|].
    destruct (Ascii.eqb a b) eqn:Hab; [|discriminate].
    apply Ascii.eqb_eq in Hab; subst b. now rewrite (IH s H).
Qed.

(** A path of the message-history shape is none of the fixed paths. *)
Lemma messagePath_not_fixed (p group : string) :
  messagePathMatch p = Some group ->
  (p =? "/") = false /\ (p =? "/events") = false
  /\ (p =? "/api/state") = false /\ (p =? "/api/chats") = false.
Proof.
  unfold messagePathMatch.
  destruct (stripPrefix "/api/chats/" p) as [rest|] eqn:Hp; [|discriminate].
  intros _. apply stripPrefix_Some in Hp; subst p.
  repeat split; reflexivity.
Qed.

Lemma status_test (s : AppState) :
  status s <> "ready" -> negb (status s =? "ready") = true.
Proof. intro H. apply String.eqb_neq in H. now rewrite H. Qed.

(** The two guarded reads, before the readiness test. *)
Lemma server_chats_not_ready (env : Env) (w : World) (req : Request) (res : Res) :
  method req = "GET" -> pathname req = "/api/chats" ->
  status (appState w) <> "ready" ->
  server env req res w = (Normal (Json 409 (BError "Client is not ready yet.")), w).
Proof.
  intros Hm Hp Hs. unfold server. rewrite Hm, Hp; simpl.
  unfold bind, getState; simpl. now rewrite (status_test _ Hs).
Qed.

Lemma server_history_not_ready (env : Env) (w : World) (req : Request) (res : Res)
    (group : string) :
  method req = "GET" -> messagePathMatch (pathname req) = Some group ->
  status (appState w) <> "ready" ->
  server env req res w = (Normal (Json 409 (BError "Client is not ready yet.")), w).
Proof.
  intros Hm Hp Hs. unfold server.
  destruct (messagePath_not_fixed _ _ Hp) as [H1 [H2 [H3 H4]]].
  rewrite Hm, H1, H2, H3, H4, Hp; simpl.
  unfold bind, getState; simpl. now rewrite (status_test _ Hs).
Qed.

(** C1, as the code has it. While the status is not [ready], [GET
    /api/chats] and [GET /api/chats/{chatId}/messages] answer 409 with the
    not-ready error and touch nothing; [GET /api/state] has no readiness
    test and answers 200 with the current state whatever the status. *)
Theorem guarded_reads_answer_409_state_answers_200
    (env : Env) (w : World) (req : Request) (res : Res) :
  method req = "GET" ->
  (pathname req = "/api/state" ->
   server env req res w
   = (Normal (Json 200 (BState (publicState (appState w)))), w))
  /\ (status (appState w) <> "ready" ->
      pathname req = "/api/chats" \/ messagePathMatch (pathname req) <> None ->
      server env req res w
      = (Normal (Json 409 (BError "Client is not ready yet.")), w)).
Proof.
  intro Hm; split.
  - intro Hp. unfold server. rewrite Hm, Hp; reflexivity.
  - intros Hs [Hp|Hp].
    + now apply server_chats_not_ready.
    + destruct (messagePathMatch (pathname req)) as [group|] eqn:Hg;
        [|now elim Hp].
      now apply (server_history_not_ready env w req res group).
Qed.

Lemma guarded_reads_answer_409_state_answers_200_witness :
  server Demo.env (Demo.get "/api/state" None) 7 (initialWorld Demo.t0)
  = (Normal (Json 200 (BState (initialState Demo.t0))), initialWorld Demo.t0)
  /\ server Demo.env (Demo.get "/api/chats" None) 7 (initialWorld Demo.t0)
     = (Normal (Json 409 (BError "Client is not ready yet.")), initialWorld Demo.t0)
  /\ server Demo.env (Demo.get "/api/chats/123@c.us/messages" (Some "5")) 7
       (initialWorld Demo.t0)
     = (Normal (Json 409 (BError "Client is not ready yet.")), initialWorld Demo.t0).
Proof.
  split; [|split].
  - apply (guarded_reads_answer_409_state_answers_200 Demo.env
             (initialWorld Demo.t0) (Demo.get "/api/state" None) 7);
      reflexivity.
  - apply (guarded_reads_answer_409_state_answers_200 Demo.env
             (initialWorld Demo.t0) (Demo.get "/api/chats" None) 7).
    + reflexivity.
    + simpl; discriminate.
    + left; reflexivity.
  - apply (guarded_reads_answer_409_state_answers_200 Demo.env
             (initialWorld Demo.t0)
             (Demo.get "/api/chats/123@c.us/messages" (Some "5")) 7).
    + reflexivity.
    + simpl; discriminate.
    + right; vm_compute; discriminate.
Defined.

(** C1, as the specification has it, fails on [GET /api/state]: the status
    is [starting] and the answer is not the 409. *)
Lemma state_endpoint_answers_while_not_ready :
  ~ (status (appState (initialWorld Demo.t0)) <> "ready" ->
     completion (server Demo.env (Demo.get "/api/state" None) 7)
       (initialWorld Demo.t0)
     = Normal (Json 409 (BError "Client is not ready yet."))).
Proof.
  intro H.
  assert (Hs : status (appState (initialWorld Demo.t0)) <> "ready")
    by (simpl; discriminate).
  specialize (H Hs). vm_compute in H. discriminate H.
Qed.

(** ** Reading the request body *)

(** A settled promise keeps its value. *)
Lemma readerStep_settled (env : Env) (r : Reader) (ev : ReqEvent)
    (v : Fallible JsValue) :
  promise r = Some v -> promise (readerStep env r ev) = Some v.
Proof.
  intro H. destruct ev as [chunk| |message]; simpl.
  - destruct (1000000 <? strlen (body r ++ chunk))%N; simpl; now rewrite ?H.
  - destruct (body r); simpl; [now rewrite H|].
    destruct (JSON_parse env _); simpl; now rewrite H.
  - now rewrite H.
Qed.

Lemma fold_settled (env : Env) (events : list ReqEvent) (r : Reader)
    (v : Fallible JsValue) :
  promise r = Some v -> promise (fold_left (readerStep env) events r) = Some v.
Proof.
  revert r; induction events as [|ev rest IH]; intros r H; simpl; [assumption|].
  apply IH. now apply readerStep_settled.
Qed.

(** An empty body: any number of empty chunks, then the end. *)
Lemma readBody_empty (env : Env) (n : nat) :
  readBody env (repeat (Data "") n ++ [End]) = Some (Resolved (JObj [])).
Proof.
  unfold readBody.
  induction n as [|n IH]; simpl; [reflexivity|exact IH].
Qed.

(** A body that arrives in one chunk within the size limit. *)
Lemma readBody_text (env : Env) (text : string) :
  text <> "" -> (strlen text <= 1000000)%N ->
  readBody env [Data text; End]
  = Some match JSON_parse env text with
         | Some v => Resolved v
         | None => Rejected "Invalid JSON payload"
         end.
Proof.
  intros Hne Hlen. unfold readBody; simpl.
  apply N.ltb_ge in Hlen. rewrite Hlen; simpl.
  destruct text as [|c text]; [now elim Hne|].
  destruct (JSON_parse env (String c text)); reflexivity.
Qed.

(** Chunks whose sizes add up beyond the limit reject the promise,
    whatever follows them. *)
Lemma strlen_append (a b : string) : strlen (a ++ b) = (strlen a + strlen b)%N.
Proof.
  unfold strlen. rewrite <- Nat2N.inj_add. f_equal.
  induction a as [|c a IH]; simpl; [reflexivity|now rewrite IH].
Qed.

Lemma data_steps_reject (env : Env) (chunks : list string) (r : Reader) :
  promise r = None \/ promise r = Some (Rejected "Payload too large") ->
  chunks <> [] ->
  (1000000 < strlen (body r) + fold_right N.add 0 (map strlen chunks))%N ->
  promise (fold_left (readerStep env) (map Data chunks) r)
  = Some (Rejected "Payload too large").
Proof.
  revert r; induction chunks as [|chunk rest IH]; intros r Hp Hne Hlen;
    [now elim Hne|].
  cbn [map fold_left fold_right] in *.
  set (r1 := readerStep env r (Data chunk)).
  assert (Hbody : body r1 = (body r ++ chunk)%string).
  { unfold r1; simpl. now destruct (1000000 <? strlen (body r ++ chunk))%N. }
  assert (Hp1 : promise r1 = None \/ promise r1 = Some (Rejected "Payload too large")).
  { unfold r1; simpl. destruct (1000000 <? strlen (body r ++ chunk))%N; simpl.
    - right. destruct Hp as [-> | ->]; reflexivity.
    - exact Hp. }
  destruct rest as [|next rest].
  - simpl in *. unfold r1; simpl.
    rewrite N.add_0_r, <- strlen_append in Hlen.
    apply N.ltb_lt in Hlen. rewrite Hlen; simpl.
    destruct Hp as [-> | ->]; reflexivity.
  - apply IH; [exact Hp1 | discriminate|].
    rewrite Hbody, strlen_append. lia.
Qed.

Lemma readBody_too_large (env : Env) (chunks : list string) (rest : list ReqEvent) :
  (1000000 < fold_right N.add 0 (map strlen chunks))%N ->
  readBody env (map Data chunks ++ rest) = Some (Rejected "Payload too large").
Proof.
  intro Hlen. unfold readBody. rewrite fold_left_app.
  apply fold_settled. apply data_steps_reject.
  - now left.
  - intro H; subst; simpl in Hlen; lia.
  - exact Hlen.
Qed.

Lemma strlen_filler (n : N) : strlen (filler n) = n.
Proof.
  unfold filler, strlen.
  induction n as [|n IH] using N.peano_ind; [reflexivity|].
  rewrite N.iter_succ. cbn [String.length].
  now rewrite Nat2N.inj_succ, IH.
Qed.

(** ** Sending a message *)

Lemma server_send_route (env : Env) (w : World) (req : Request) (res : Res) :
  method req = "POST" -> pathname req = "/api/send" ->
  server env req res w
  = if negb (status (appState w) =? "ready")
    then (Normal (Json 409 (BError "Client is not ready yet.")), w)
    else
      match readBody env (bodyEvents req) with
      | None => (Normal Pending, w)
      | Some (Rejected e) => sendFailure e w
      | Some (Resolved JNull) => sendFailure (destructureNullMessage env) w
      | Some (Resolved parsed) =>
          match nonEmptyString (prop parsed "chatId") with
          | None => (Normal (Json 400 (BError "chatId is required.")), w)
          | Some chatId =>
              match nonEmptyString (prop parsed "message") with
              | None => (Normal (Json 400 (BError "message is required.")), w)
              | Some message =>
                  (match sendMessage env chatId message with
                   | Resolved sent => Normal (Json 200 (BSent (serializeMessage sent)))
                   | Rejected e =>
                       Normal (Json (if includes e "JSON" then 400%Z else 500%Z)
                                 (BError e))
                   end,
                   {| appState := appState w; sseClients := sseClients w;
                      intervals := intervals w; writes := writes w;
                      calls := calls w ++ [CallSendMessage chatId message];
                      stream := stream w |})
              end
          end
      end.
Proof.
  intros Hm Hp. unfold server. rewrite Hm, Hp; simpl.
  unfold bind, getState; simpl.
  destruct (negb (status (appState w) =? "ready")); [reflexivity|].
  destruct (readBody env (bodyEvents req)) as [[parsed|e]|]; try reflexivity.
  destruct parsed; try reflexivity;
    destruct (nonEmptyString _) as [chatId|]; try reflexivity;
    destruct (nonEmptyString _) as [message|]; try reflexivity;
    unfold callClient; simpl;
    destruct (sendMessage env chatId message); reflexivity.
Qed.

(** C10. [POST /api/send] tests the readiness before it reads the body:
    while the status is not [ready] the answer is the 409 for every body
    the request may carry (malformed, over the size limit or without the
    fields) and nothing else happens. When the status is [ready], a body
    with no text resolves to the empty object, so the answer is the 400
    for the missing [chatId], not a parse error. *)
Theorem send_tests_readiness_before_body
    (env : Env) (w : World) (req : Request) (res : Res) :
  method req = "POST" -> pathname req = "/api/send" ->
  (status (appState w) <> "ready" ->
   server env req res w
   = (Normal (Json 409 (BError "Client is not ready yet.")), w))
  /\ (status (appState w) = "ready" ->
      forall n, bodyEvents req = repeat (Data "") n ++ [End] ->
      server env req res w
      = (Normal (Json 400 (BError "chatId is required.")), w)).
Proof.
  intros Hm Hp; rewrite (server_send_route env w req res Hm Hp); split.
  - intro Hs. now rewrite (status_test _ Hs).
  - intros Hs n Hb. rewrite Hs, Hb, readBody_empty. reflexivity.
Qed.

Lemma send_tests_readiness_before_body_witness :
  server Demo.env (Demo.post "/api/send" [Data "{bad"; End]) 7 (initialWorld Demo.t0)
  = (Normal (Json 409 (BError "Client is not ready yet.")), initialWorld Demo.t0)
  /\ server Demo.env (Demo.post "/api/send" [End]) 7 Demo.readyWorld
     = (Normal (Json 400 (BError "chatId is required.")), Demo.readyWorld).
Proof.
  split.
  - apply (send_tests_readiness_before_body Demo.env (initialWorld Demo.t0)
             (Demo.post "/api/send" [Data "{bad"; End]) 7);
      [reflexivity | reflexivity | simpl; discriminate].
  - apply (send_tests_readiness_before_body Demo.env Demo.readyWorld
             (Demo.post "/api/send" [End]) 7) with (n := 0%nat);
      reflexivity.
Defined.

Lemma nonEmptyString_Some (x : option JsValue) (s : string) :
  nonEmptyString x = Some s -> x = Some (JStr s) /\ s <> "".
Proof.
  destruct x as [[| | |t| |]|]; simpl; try discriminate.
  destruct t; [discriminate|]. intro H; inversion H; subst.
  split; [reflexivity|discriminate].
Qed.

(** A body over the size limit, once the session is ready. *)
Lemma send_too_large (env : Env) (w : World) (req : Request) (res : Res)
    (chunks : list string) (rest : list ReqEvent) :
  method req = "POST" -> pathname req = "/api/send" ->
  status (appState w) = "ready" ->
  bodyEvents req = map Data chunks ++ rest ->
  (1000000 < fold_right N.add 0 (map strlen chunks))%N ->
  server env req res w = (Normal (Json 500 (BError "Payload too large")), w).
Proof.
  intros Hm Hp Hs Hb Hlen.
  rewrite (server_send_route env w req res Hm Hp), Hs, Hb.
  rewrite (readBody_too_large env chunks rest Hlen). reflexivity.
Qed.

(** C5 on the code: with the session ready, a body of 1,048,576
    characters, arriving in 16 chunks of 65,536, is answered 500, not
    400. *)
Theorem oversized_body_answers_500 :
  server Demo.env
    (Demo.post "/api/send" (map Data (repeat (filler 65536) 16) ++ [End])) 7
    Demo.readyWorld
  = (Normal (Json 500 (BError "Payload too large")), Demo.readyWorld).
Proof.
  apply (send_too_large Demo.env Demo.readyWorld _ 7
           (repeat (filler 65536) 16) [End]);
    [reflexivity | reflexivity | reflexivity | reflexivity |].
  cbn [repeat map fold_right]. rewrite !strlen_filler. reflexivity.
Qed.

(** C8. With the session ready and a body of one chunk within the size
    limit: a body that parses to the empty object is answered 400 with
    [chatId is required.]; one that parses to an object with [chatId]
    ["123"] and nothing else is answered 400 with [message is required.];
    one that does not parse is answered 400 with [Invalid JSON payload],
    which names JSON; and the client is asked to send only when [chatId]
    and [message] are both non-empty strings, with exactly these two. *)
Theorem send_validates_body
    (env : Env) (w : World) (req : Request) (res : Res) (text : string) :
  method req = "POST" -> pathname req = "/api/send" ->
  status (appState w) = "ready" ->
  bodyEvents req = [Data text; End] ->
  text <> "" -> (strlen text <= 1000000)%N ->
  (JSON_parse env text = Some (JObj []) ->
   server env req res w
   = (Normal (Json 400 (BError "chatId is required.")), w))
  /\ (JSON_parse env text = Some (JObj [("chatId", JStr "123")]) ->
      server env req res w
      = (Normal (Json 400 (BError "message is required.")), w))
  /\ (JSON_parse env text = None ->
      server env req res w
      = (Normal (Json 400 (BError "Invalid JSON payload")), w)
      /\ includes "Invalid JSON payload" "JSON" = true)
  /\ (forall v, JSON_parse env text = Some v ->
      calls (exec (server env req res) w) <> calls w ->
      exists chatId message,
        prop v "chatId" = Some (JStr chatId) /\ chatId <> ""
        /\ prop v "message" = Some (JStr message) /\ message <> ""
        /\ calls (exec (server env req res) w)
           = calls w ++ [CallSendMessage chatId message]).
Proof.
  intros Hm Hp Hs Hb Hne Hlen.
  unfold exec.
  rewrite (server_send_route env w req res Hm Hp), Hs, Hb.
  rewrite (readBody_text env text Hne Hlen); simpl.
  split; [|split; [|split]].
  - intro H; now rewrite H.
  - intro H; now rewrite H.
  - intro H; now rewrite H.
  - intros v H; rewrite H.
    destruct v; simpl; try (intro Hc; now elim Hc).
    destruct (nonEmptyString (lookup "chatId" props)) as [chatId|] eqn:Hc;
      simpl; [|intro Hx; now elim Hx].
    destruct (nonEmptyString (lookup "message" props)) as [message|] eqn:Hmsg;
      simpl; [|intro Hx; now elim Hx].
    intros _. exists chatId, message.
    apply nonEmptyString_Some in Hc, Hmsg.
    destruct Hc as [Hc1 Hc2], Hmsg as [Hm1 Hm2].
    repeat split; assumption || reflexivity.
Qed.

Lemma send_validates_body_witness :
  server Demo.env (Demo.post "/api/send" [Data "{}"; End]) 7 Demo.readyWorld
  = (Normal (Json 400 (BError "chatId is required.")), Demo.readyWorld)
  /\ server Demo.env
       (Demo.post "/api/send"
          [Data ("{" ++ Demo.quoted "chatId" ++ ":" ++ Demo.quoted "123" ++ "}")%string;
           End]) 7 Demo.readyWorld
     = (Normal (Json 400 (BError "message is required.")), Demo.readyWorld)
  /\ server Demo.env (Demo.post "/api/send" [Data "{bad"; End]) 7 Demo.readyWorld
     = (Normal (Json 400 (BError "Invalid JSON payload")), Demo.readyWorld).
Proof.
  split; [|split].
  - apply (send_validates_body Demo.env Demo.readyWorld
             (Demo.post "/api/send" [Data "{}"; End]) 7 "{}");
      try reflexivity; [discriminate | vm_compute; discriminate].
  - apply (send_validates_body Demo.env Demo.readyWorld
             (Demo.post "/api/send"
                [Data ("{" ++ Demo.quoted "chatId" ++ ":" ++ Demo.quoted "123" ++ "}")%string;
                 End]) 7
             ("{" ++ Demo.quoted "chatId" ++ ":" ++ Demo.quoted "123" ++ "}")%string);
      try reflexivity; [discriminate | vm_compute; discriminate].
  - apply (send_validates_body Demo.env Demo.readyWorld
             (Demo.post "/api/send" [Data "{bad"; End]) 7 "{bad");
      try reflexivity; [discriminate | vm_compute; discriminate].
Defined.

(** ** The message-history limit *)

Lemma Qle_bool_false (x y : Q) : Qle_bool x y = false -> ~ (x <= y)%Q.
Proof. intros H Hle. apply Qle_bool_iff in Hle. congruence. Qed.

(** [Math.max(1, Math.min(r, 100))] on a finite [r]. *)
Lemma clamp_finite (r : Q) :
  exists q,
    Math_max (Fin (1 # 1)%Q) (Math_min (Fin r) (Fin (100 # 1)%Q)) = Fin q
    /\ ((1 # 1) <= q /\ q <= (100 # 1))%Q
    /\ ((r < 1 # 1)%Q -> q = (1 # 1)%Q)
    /\ (((1 # 1) <= r /\ r <= (100 # 1))%Q -> q = r)
    /\ (((100 # 1) < r)%Q -> q = (100 # 1)%Q).
Proof.
  simpl. destruct (Qle_bool r (100 # 1)) eqn:Hhi.
  - apply Qle_bool_iff in Hhi.
    destruct (Qle_bool (1 # 1) r) eqn:Hlo.
    + apply Qle_bool_iff in Hlo. exists r.
      repeat split; auto.
      * intro H. elim (Qlt_not_le _ _ H Hlo).
      * intro H. elim (Qlt_not_le _ _ H Hhi).
    + apply Qle_bool_false in Hlo. exists (1 # 1)%Q.
      repeat split; try discriminate; auto.
      * intros [H _]. now elim Hlo.
      * intro H. elim (Qlt_not_le _ _ H Hhi).
  - apply Qle_bool_false in Hhi. exists (100 # 1)%Q.
    repeat split; try discriminate; auto.
    + intro H. elim Hhi. apply Qlt_le_weak.
      apply Qlt_le_trans with (1 # 1)%Q; [assumption | discriminate].
    + intros [_ H]. now elim Hhi.
Qed.

(** Lines 215-218 by cases of the parameter. *)
Lemma effectiveLimit_cases (env : Env) (l : option string) :
  exists q,
    effectiveLimit env l = Fin q
    /\ ((1 # 1) <= q /\ q <= (100 # 1))%Q
    /\ match l with
       | None => q = (40 # 1)%Q
       | Some EmptyString => q = (40 # 1)%Q
       | Some s =>
           match Number_of_string env s with
           | Fin r =>
               ((r < 1 # 1)%Q -> q = (1 # 1)%Q)
               /\ (((1 # 1) <= r /\ r <= (100 # 1))%Q -> q = r)
               /\ (((100 # 1) < r)%Q -> q = (100 # 1)%Q)
           | _ => q = (40 # 1)%Q
           end
       end.
Proof.
  assert (H40 : ((1 # 1) <= (40 # 1) /\ (40 # 1) <= (100 # 1))%Q)
    by (split; discriminate).
  destruct l as [[|c s]|].
  - exists (40 # 1)%Q; auto.
  - unfold effectiveLimit, requestedLimit.
    destruct (Number_of_string env (String c s)) as [| | |r] eqn:Hn;
      try (exists (40 # 1)%Q; simpl; now auto).
    destruct (clamp_finite r) as [q [Hq [Hrange Hcases]]].
    exists q; simpl isFinite; cbv iota. auto.
  - exists (40 # 1)%Q; auto.
Qed.

Lemma server_history_ready (env : Env) (w : World) (req : Request) (res : Res)
    (group chatId : string) (chat : RawChat) :
  method req = "GET" -> messagePathMatch (pathname req) = Some group ->
  status (appState w) = "ready" ->
  decodeURIComponent env group = Resolved chatId ->
  getChatById env chatId = Resolved chat ->
  calls (exec (server env req res) w)
  = calls w ++ [CallGetChatById chatId;
                CallFetchMessages chat (effectiveLimit env (limit req))].
Proof.
  intros Hm Hp Hs Hd Hc. unfold exec, server.
  destruct (messagePath_not_fixed _ _ Hp) as [H1 [H2 [H3 H4]]].
  rewrite Hm, H1, H2, H3, H4, Hp; simpl.
  unfold bind, getState; simpl. rewrite Hs; simpl. rewrite Hd.
  unfold callClient; simpl. rewrite Hc; simpl.
  destruct (fetchMessages env chat _); simpl; now rewrite <- app_assoc.
Qed.

(** C6. With the session ready, [GET /api/chats/{chatId}/messages] asks
    the chat for its messages with a limit in [1, 100]: 40 when the
    parameter is absent or has no text, 40 when its number is not finite,
    and otherwise its number clamped, so 1 below 1 and 100 above 100. *)
Theorem history_limit_is_clamped
    (env : Env) (w : World) (req : Request) (res : Res)
    (group chatId : string) (chat : RawChat) :
  method req = "GET" -> messagePathMatch (pathname req) = Some group ->
  status (appState w) = "ready" ->
  decodeURIComponent env group = Resolved chatId ->
  getChatById env chatId = Resolved chat ->
  exists q,
    calls (exec (server env req res) w)
    = calls w ++ [CallGetChatById chatId; CallFetchMessages chat (Fin q)]
    /\ ((1 # 1) <= q /\ q <= (100 # 1))%Q
    /\ match limit req with
       | None => q = (40 # 1)%Q
       | Some EmptyString => q = (40 # 1)%Q
       | Some s =>
           match Number_of_string env s with
           | Fin r =>
               ((r < 1 # 1)%Q -> q = (1 # 1)%Q)
               /\ (((1 # 1) <= r /\ r <= (100 # 1))%Q -> q = r)
               /\ (((100 # 1) < r)%Q -> q = (100 # 1)%Q)
           | _ => q = (40 # 1)%Q
           end
       end.
Proof.
  intros Hm Hp Hs Hd Hc.
  destruct (effectiveLimit_cases env (limit req)) as [q [Hq [Hrange Hcases]]].
  exists q. rewrite <- Hq. split; [|split; assumption].
  now apply (server_history_ready env w req res group chatId chat).
Qed.

Lemma history_limit_is_clamped_witness :
  (exists q,
      calls (exec (server Demo.env
                     (Demo.get "/api/chats/123@c.us/messages" (Some "0")) 7)
               Demo.readyWorld)
      = [CallGetChatById "123@c.us";
         CallFetchMessages (Demo.chat "123@c.us" (Some 5%Z)) (Fin q)]
      /\ q = (1 # 1)%Q)
  /\ (exists q,
         calls (exec (server Demo.env
                        (Demo.get "/api/chats/123@c.us/messages" (Some "500")) 7)
                  Demo.readyWorld)
         = [CallGetChatById "123@c.us";
            CallFetchMessages (Demo.chat "123@c.us" (Some 5%Z)) (Fin q)]
         /\ q = (100 # 1)%Q)
  /\ (exists q,
         calls (exec (server Demo.env
                        (Demo.get "/api/chats/123@c.us/messages" None) 7)
                  Demo.readyWorld)
         = [CallGetChatById "123@c.us";
            CallFetchMessages (Demo.chat "123@c.us" (Some 5%Z)) (Fin q)]
         /\ q = (40 # 1)%Q)
  /\ (exists q,
         calls (exec (server Demo.env
                        (Demo.get "/api/chats/123@c.us/messages" (Some "abc")) 7)
                  Demo.readyWorld)
         = [CallGetChatById "123@c.us";
            CallFetchMessages (Demo.chat "123@c.us" (Some 5%Z)) (Fin q)]
         /\ q = (40 # 1)%Q).
Proof.
  split; [|split; [|split]].
  - destruct (history_limit_is_clamped Demo.env Demo.readyWorld
                (Demo.get "/api/chats/123@c.us/messages" (Some "0")) 7
                "123@c.us" "123@c.us" (Demo.chat "123@c.us" (Some 5%Z))
                eq_refl eq_refl eq_refl eq_refl eq_refl)
      as [q [Hcalls [_ Hcase]]].
    exists q; split; [exact Hcalls|]. apply Hcase. reflexivity.
  - destruct (history_limit_is_clamped Demo.env Demo.readyWorld
                (Demo.get "/api/chats/123@c.us/messages" (Some "500")) 7
                "123@c.us" "123@c.us" (Demo.chat "123@c.us" (Some 5%Z))
                eq_refl eq_refl eq_refl eq_refl eq_refl)
      as [q [Hcalls [_ Hcase]]].
    exists q; split; [exact Hcalls|]. apply Hcase. reflexivity.
  - destruct (history_limit_is_clamped Demo.env Demo.readyWorld
                (Demo.get "/api/chats/123@c.us/messages" None) 7
                "123@c.us" "123@c.us" (Demo.chat "123@c.us" (Some 5%Z))
                eq_refl eq_refl eq_refl eq_refl eq_refl)
      as [q [Hcalls [_ Hcase]]].
    exists q; split; [exact Hcalls | exact Hcase].
  - destruct (history_limit_is_clamped Demo.env Demo.readyWorld
                (Demo.get "/api/chats/123@c.us/messages" (Some "abc")) 7
                "123@c.us" "123@c.us" (Demo.chat "123@c.us" (Some 5%Z))
                eq_refl eq_refl eq_refl eq_refl eq_refl)
      as [q [Hcalls [_ Hcase]]].
    exists q; split; [exact Hcalls | exact Hcase].
Defined.

(** ** The chat list *)

Section StableSort.

Context {A : Type} (cmp : A -> A -> Z).

Hypothesis cmp_total : forall a b, (0 < cmp a b)%Z -> (cmp b a <= 0)%Z.
Hypothesis cmp_trans :
  forall a b c, (cmp a b <= 0)%Z -> (cmp b c <= 0)%Z -> (cmp a c <= 0)%Z.

Lemma insert_by_perm (x : A) (l : list A) :
  Permutation (insert_by cmp x l) (x :: l).
Proof.
  induction l as [|y rest IH]; simpl; [reflexivity|].
  destruct (cmp x y <=? 0)%Z; [reflexivity|].
  rewrite IH. apply perm_swap.
Qed.

Lemma sort_by_perm (l : list A) : Permutation (sort_by cmp l) l.
Proof.
  induction l as [|x rest IH]; simpl; [reflexivity|].
  rewrite insert_by_perm. now constructor.
Qed.

Lemma insert_by_sorted (x : A) (l : list A) :
  StronglySorted (fun a b => (cmp a b <= 0)%Z) l ->
  StronglySorted (fun a b => (cmp a b <= 0)%Z) (insert_by cmp x l).
Proof.
  induction 1 as [|y rest Hsorted IH Hall]; simpl.
  - repeat constructor.
  - destruct (cmp x y <=? 0)%Z eqn:Hxy.
    + apply Z.leb_le in Hxy.
      constructor; [now constructor|].
      constructor; [assumption|].
      eapply Forall_impl; [|exact Hall].
      intros z Hyz; simpl in Hyz. now apply (cmp_trans x y z).
    + apply Z.leb_gt in Hxy.
      constructor; [assumption|].
      apply (Permutation_Forall (Permutation_sym (insert_by_perm x rest))).
      constructor; [now apply cmp_total | assumption].
Qed.

Lemma sort_by_sorted (l : list A) :
  StronglySorted (fun a b => (cmp a b <= 0)%Z) (sort_by cmp l).
Proof.
  induction l as [|x rest IH]; simpl; [constructor|].
  now apply insert_by_sorted.
Qed.

End StableSort.

Lemma slice0_firstn {A : Type} (l : list A) (q : Q) :
  (0 <= truncate q)%Z ->
  slice0 l (Fin q) = firstn (Z.to_nat (truncate q)) l.
Proof.
  intro H. unfold slice0.
  destruct (truncate q <? 0)%Z eqn:Hneg; [apply Z.ltb_lt in Hneg; lia|].
  destruct (Z.le_gt_cases (truncate q) (Z.of_nat (List.length l))) as [Hle|Hgt].
  - now rewrite Z.min_l.
  - rewrite Z.min_r by lia. rewrite Nat2Z.id.
    rewrite firstn_all. symmetry. apply firstn_all2. lia.
Qed.

(** * Further properties of the code *)

(** ** The set of streams *)

Lemma set_delete_In (res r : Res) (l : list Res) :
  In r (set_delete res l) <-> In r l /\ r <> res.
Proof.
  unfold set_delete. rewrite filter_In. split; intros [H1 H2]; split; auto.
  - intro Heq; subst. now rewrite Nat.eqb_refl in H2.
  - apply negb_true_iff, Nat.eqb_neq. congruence.
Qed.

Lemma set_delete_idem (res : Res) (l : list Res) :
  set_delete res (set_delete res l) = set_delete res l.
Proof.
  unfold set_delete. induction l as [|x l IH]; simpl; [reflexivity|].
  destruct (negb (res =? x)%nat) eqn:Hx; simpl; rewrite ?Hx, IH; reflexivity.
Qed.

Lemma set_delete_absent (res : Res) (l : list Res) :
  ~ In res l -> set_delete res l = l.
Proof.
  unfold set_delete. induction l as [|x l IH]; simpl; intro H; [reflexivity|].
  destruct (Nat.eqb_spec res x) as [->|Hne]; simpl.
  - elim H; now left.
  - rewrite IH; [reflexivity | tauto].
Qed.

Lemma set_add_In (res r : Res) (l : list Res) :
  In r (set_add res l) <-> In r l \/ r = res.
Proof.
  unfold set_add. destruct (existsb (Nat.eqb res) l) eqn:Hin.
  - apply existsb_exists in Hin. destruct Hin as [x [Hx Heq]].
    apply Nat.eqb_eq in Heq; subst x. split; [tauto|]. intros [H| ->]; assumption.
  - rewrite in_app_iff; simpl. intuition congruence.
Qed.

Lemma set_add_fresh (res : Res) (l : list Res) :
  ~ In res l -> set_add res l = l ++ [res].
Proof.
  intro H. unfold set_add.
  destruct (existsb (Nat.eqb res) l) eqn:Hin; [|reflexivity].
  apply existsb_exists in Hin. destruct Hin as [x [Hx Heq]].
  apply Nat.eqb_eq in Heq; subst x. now elim H.
Qed.

Lemma set_add_NoDup (res : Res) (l : list Res) :
  NoDup l -> NoDup (set_add res l).
Proof.
  intro Hnd. unfold set_add.
  destruct (existsb (Nat.eqb res) l) eqn:Hin; [assumption|].
  assert (Hnot : ~ In res l).
  { intro H. assert (Ht : existsb (Nat.eqb res) l = true)
      by (apply existsb_exists; exists res; split; [assumption|apply Nat.eqb_refl]).
    congruence. }
  apply NoDup_app; [assumption | repeat constructor; intros [] |].
  intros x Hx [<-|[]]. now elim Hnot.
Qed.

Lemma set_delete_NoDup (res : Res) (l : list Res) :
  NoDup l -> NoDup (set_delete res l).
Proof. apply NoDup_filter. Qed.

Lemma set_delete_add (res : Res) (l : list Res) :
  ~ In res l -> set_delete res (set_add res l) = l.
Proof.
  intro H. rewrite (set_add_fresh res l H). unfold set_delete.
  rewrite filter_app; simpl. rewrite Nat.eqb_refl; simpl.
  rewrite app_nil_r. now apply set_delete_absent.
Qed.

Lemma on_close_run (res : Res) (w : World) :
  on_close res w
  = (Normal tt,
     {| appState := appState w;
        sseClients := set_delete res (sseClients w);
        intervals := set_delete res (intervals w);
        writes := writes w; calls := calls w; stream := stream w |}).
Proof. reflexivity. Qed.

Lemma reached_incl (st : Res -> WriteOutcome) (l : list Res) (r : Res) :
  In r (reached st l) -> In r l.
Proof.
  induction l as [|x l IH]; simpl; [tauto|].
  destruct (st x); simpl; intros [H|H]; auto; tauto.
Qed.

(** X1. The close listener removes its stream from the set and its timer,
    always completes, touches neither the state nor what was written, and
    leaves every other stream where it was; running it a second time
    changes nothing. *)
Theorem on_close_is_idempotent_and_local (w : World) (res : Res) :
  exec (on_close res) (exec (on_close res) w) = exec (on_close res) w
  /\ completion (on_close res) w = Normal tt
  /\ ~ In res (sseClients (exec (on_close res) w))
  /\ ~ In res (intervals (exec (on_close res) w))
  /\ (forall r, r <> res ->
        (In r (sseClients (exec (on_close res) w)) <-> In r (sseClients w)))
  /\ appState (exec (on_close res) w) = appState w
  /\ writes (exec (on_close res) w) = writes w.
Proof.
  unfold exec, completion. rewrite !on_close_run; simpl.
  rewrite !set_delete_idem.
  split; [reflexivity|]. split; [reflexivity|].
  split; [rewrite set_delete_In; tauto|].
  split; [rewrite set_delete_In; tauto|].
  split; [|split; reflexivity].
  intros r Hr. rewrite set_delete_In. tauto.
Qed.

(** X2. Once the close listener of a stream has run, a broadcast or a
    state update calls [write] on that stream no more. *)
Theorem closed_stream_is_written_no_more
    (w : World) (res : Res) (partial : Partial) (now event : string)
    (data : Payload) :
  writesTo res (exec (broadcast event data) (exec (on_close res) w))
  = writesTo res w
  /\ writesTo res (exec (updateState partial now) (exec (on_close res) w))
     = writesTo res w.
Proof.
  assert (Hnone : forall f l,
             filter (fun c => Nat.eqb (wc_res c) res)
               (map (callOn (exec (on_close res) w) f)
                  (reached (stream w) (set_delete res l))) = []).
  { intros f l. generalize (reached_incl (stream w) (set_delete res l)).
    induction (reached (stream w) (set_delete res l)) as [|x xs IH];
      intro Hin; simpl; [reflexivity|].
    assert (Hx : x <> res).
    { apply (set_delete_In res x l). apply Hin; now left. }
    apply Nat.eqb_neq in Hx. rewrite Hx.
    apply IH. intros r Hr; apply Hin; now right. }
  unfold writesTo, exec at 1 3.
  rewrite broadcast_run, updateState_run; simpl.
  rewrite !filter_app.
  rewrite (Hnone (FEvent event data) (sseClients w)).
  rewrite (Hnone (FEvent "state"
                    (PState (publicState (stamped (appState w) partial now))))
             (sseClients w)).
  now rewrite !app_nil_r.
Qed.

(** X3. Opening [GET /events] on a stream that is not registered and then
    running its close listener leaves the set of streams and the timers as
    they were before: no entry is left behind. *)
Theorem open_then_close_leaves_no_entry
    (env : Env) (w : World) (req : Request) (res : Res) :
  method req = "GET" -> pathname req = "/events" ->
  stream w res = Written ->
  ~ In res (sseClients w) -> ~ In res (intervals w) ->
  let w' := exec (on_close res) (exec (server env req res) w) in
  sseClients w' = sseClients w
  /\ intervals w' = intervals w
  /\ appState w' = appState w.
Proof.
  intros Hm Hp Hok Hc Hi w'. unfold w'.
  assert (Hrun : exec (server env req res) w = exec (subscribe res) w)
    by (unfold exec at 1; now rewrite (server_events env w req res Hm Hp Hok)).
  rewrite Hrun. unfold exec. rewrite (subscribe_run res w Hok), on_close_run; simpl.
  rewrite Nat.eqb_refl; simpl.
  rewrite (set_delete_add res _ Hc).
  fold (set_delete res (intervals w)). rewrite (set_delete_absent res _ Hi).
  repeat split; reflexivity.
Qed.

Lemma open_then_close_leaves_no_entry_witness :
  sseClients (exec (on_close 9)
                (exec (server Demo.env (Demo.get "/events" None) 9)
                   (Demo.fanout Failed))) = [1; 2; 3]
  /\ intervals (exec (on_close 9)
                  (exec (server Demo.env (Demo.get "/events" None) 9)
                     (Demo.fanout Failed))) = [3; 2; 1].
Proof.
  destruct (open_then_close_leaves_no_entry Demo.env (Demo.fanout Failed)
              (Demo.get "/events" None) 9 eq_refl eq_refl eq_refl)
    as [H1 [H2 _]].
  - simpl; intros [H|[H|[H|[]]]]; discriminate H.
  - simpl; intros [H|[H|[H|[]]]]; discriminate H.
  - split; [exact H1 | exact H2].
Defined.

Lemma received_one (w : World) (f : Frame) (res : Res) (l : list Res) :
  NoDup l -> In res l -> stream w res = Written ->
  map wc_frame
    (filter (fun c => Nat.eqb (wc_res c) res
                      && match wc_outcome c with Written => true | _ => false end)
       (map (callOn w f) l))
  = [f].
Proof.
  intros Hnd Hin Hok. induction l as [|x l IH]; [destruct Hin|].
  inversion Hnd as [|? ? Hx Hl]; subst. simpl.
  destruct (Nat.eqb_spec x res) as [->|Hne]; simpl.
  - rewrite Hok; simpl. f_equal.
    clear IH Hin Hnd Hl. induction l as [|y l IH]; [reflexivity|]. simpl.
    destruct (Nat.eqb_spec y res) as [->|Hy]; simpl.
    + elim Hx; now left.
    + apply IH. intro H; apply Hx; now right.
  - apply IH; [assumption|]. destruct Hin as [->|Hin]; [now elim Hne|assumption].
Qed.

Lemma received_broadcast (w : World) (event : string) (data : Payload) (res : Res) :
  NoDup (sseClients w) -> In res (sseClients w) ->
  (forall r e, In r (sseClients w) -> stream w r <> Thrown e) ->
  stream w res = Written ->
  received res (exec (broadcast event data) w)
  = received res w ++ [FEvent event data].
Proof.
  intros Hnd Hin Hall Hok. unfold exec. rewrite broadcast_run; simpl.
  unfold received; simpl. rewrite (reached_all _ _ Hall), filter_app, map_app.
  now rewrite (received_one w (FEvent event data) res _ Hnd Hin Hok).
Qed.

(** X4. Two broadcasts in a row reach a registered, healthy stream in the
    order they were made, once each, when no write raises. *)
Theorem broadcasts_arrive_in_order
    (w : World) (res : Res) (e1 e2 : string) (d1 d2 : Payload) :
  NoDup (sseClients w) -> In res (sseClients w) ->
  (forall r e, In r (sseClients w) -> stream w r <> Thrown e) ->
  stream w res = Written ->
  received res (exec (broadcast e2 d2) (exec (broadcast e1 d1) w))
  = received res w ++ [FEvent e1 d1; FEvent e2 d2].
Proof.
  intros Hnd Hin Hall Hok.
  assert (Hsame : sseClients (exec (broadcast e1 d1) w) = sseClients w
                  /\ stream (exec (broadcast e1 d1) w) = stream w)
    by (unfold exec; rewrite broadcast_run; split; reflexivity).
  destruct Hsame as [Hc Hs].
  rewrite received_broadcast; rewrite ?Hc, ?Hs; try assumption.
  rewrite received_broadcast; try assumption.
  now rewrite <- app_assoc.
Qed.

Lemma broadcasts_arrive_in_order_witness :
  received 3
    (exec (broadcast "message" (PMessage (serializeMessage (Demo.message "a@c.us" "hi"))))
       (exec (broadcast "state" (PState (initialState Demo.t0)))
          (Demo.fanout Failed)))
  = [FEvent "state" (PState (initialState Demo.t0));
     FEvent "message" (PMessage (serializeMessage (Demo.message "a@c.us" "hi")))].
Proof.
  apply (broadcasts_arrive_in_order (Demo.fanout Failed) 3).
  - repeat constructor; simpl; intuition discriminate.
  - simpl; auto.
  - intros r e [<-|[<-|[<-|[]]]]; simpl; discriminate.
  - reflexivity.
Defined.

(** ** What a request can change *)

Lemma addCalls_nil (w : World) : addCalls [] w = w.
Proof. destruct w; unfold addCalls; simpl; now rewrite app_nil_r. Qed.

Ltac split_route :=
  repeat match goal with
    | |- context [if ?c then _ else _] => destruct c eqn:?; simpl
    | |- context [match ?x with _ => _ end] => destruct x eqn:?; simpl
    end.

Ltac close_route :=
  first
    [ eexists; exists []; rewrite addCalls_nil; split; [reflexivity | auto]
    | rewrite <- ?app_assoc; eexists; eexists;
      split; [unfold addCalls; reflexivity
             | let Hs := fresh in intro Hs; apply status_test in Hs; congruence] ].

(** Every request either opens the event stream or answers normally
    after some calls on the client, none of them while the status is not
    [ready]; nothing else of the process is touched. *)
Lemma server_cases (env : Env) (req : Request) (res : Res) (w : World) :
  (method req = "GET" /\ pathname req = "/events"
   /\ exec (server env req res) w = exec (subscribe res) w)
  \/ (exists reply cs,
        server env req res w = (Normal reply, addCalls cs w)
        /\ (status (appState w) <> "ready" -> cs = [])).
Proof.
  unfold server.
  destruct (method req =? "GET") eqn:Hm; simpl.
  - destruct (pathname req =? "/") eqn:H1; simpl.
    { right. destruct (indexHtml env); close_route. }
    destruct (pathname req =? "/events") eqn:H2; simpl.
    { left. apply String.eqb_eq in Hm, H2. repeat split; auto.
      unfold exec, bind. destruct (subscribe res w) as [[[]|e] w1]; reflexivity. }
    right. unfold bind, getState, callClient, safeJson, sendFailure, ret; simpl.
    split_route; close_route.
  - right. unfold bind, getState, callClient, safeJson, sendFailure, ret; simpl.
    split_route; close_route.
Qed.

(** The event-stream branch, whatever the stream answers. *)
Lemma subscribe_frame (res : Res) (w : World) :
  appState (exec (subscribe res) w) = appState w
  /\ calls (exec (subscribe res) w) = calls w
  /\ stream (exec (subscribe res) w) = stream w
  /\ (sseClients (exec (subscribe res) w) = sseClients w
      \/ sseClients (exec (subscribe res) w) = set_add res (sseClients w))
  /\ (forall r, r <> res -> writesTo r (exec (subscribe res) w) = writesTo r w).
Proof.
  unfold exec, subscribe, bind, write, getClients, setClients, getState,
    setIntervals, logWrite, writesTo; simpl.
  destruct (stream w res) eqn:Hres; simpl; rewrite ?Hres; simpl;
    repeat split; auto;
    intros r Hr; apply Nat.eqb_neq in Hr; rewrite Nat.eqb_sym in Hr;
    rewrite !filter_app; simpl; rewrite ?Hr; now rewrite ?app_nil_r.
Qed.

Lemma server_frame (env : Env) (req : Request) (res : Res) (w : World) :
  appState (exec (server env req res) w) = appState w
  /\ stream (exec (server env req res) w) = stream w
  /\ (sseClients (exec (server env req res) w) = sseClients w
      \/ sseClients (exec (server env req res) w) = set_add res (sseClients w))
  /\ (forall r, r <> res ->
        writesTo r (exec (server env req res) w) = writesTo r w).
Proof.
  destruct (server_cases env req res w) as [[_ [_ Hrun]]|[reply [cs [Hrun _]]]].
  - rewrite Hrun. destruct (subscribe_frame res w) as [H1 [_ [H2 [H3 H4]]]].
    repeat split; assumption.
  - unfold exec. rewrite Hrun; simpl. repeat split; auto.
Qed.

(** X5. Whatever the request, the handler calls [write] on no stream but
    the response of that request, leaves every other stream in or out of
    the set as it was, and, unless the request is [GET /events], leaves
    the set of streams and everything written as they were. *)
Theorem request_touches_only_its_own_stream
    (env : Env) (req : Request) (res : Res) (w : World) :
  (forall r, r <> res ->
     writesTo r (exec (server env req res) w) = writesTo r w
     /\ (In r (sseClients (exec (server env req res) w)) <-> In r (sseClients w)))
  /\ (~ (method req = "GET" /\ pathname req = "/events") ->
      sseClients (exec (server env req res) w) = sseClients w
      /\ writes (exec (server env req res) w) = writes w).
Proof.
  split.
  - intros r Hr. destruct (server_frame env req res w) as [_ [_ [Hc Hw]]].
    split; [now apply Hw|].
    destruct Hc as [-> | ->]; [tauto|]. rewrite set_add_In. tauto.
  - intro Hnot.
    destruct (server_cases env req res w) as [[Hm [Hp _]]|[reply [cs [Hrun _]]]].
    + elim Hnot; now split.
    + unfold exec. rewrite Hrun; simpl. split; reflexivity.
Qed.

(** X6. While the status is not [ready], no request, whatever its method,
    path or body, makes a call on the messaging client. *)
Theorem no_client_call_unless_ready
    (env : Env) (req : Request) (res : Res) (w : World) :
  status (appState w) <> "ready" ->
  calls (exec (server env req res) w) = calls w.
Proof.
  intro Hs.
  destruct (server_cases env req res w) as [[_ [_ Hrun]]|[reply [cs [Hrun Hcs]]]].
  - rewrite Hrun. now destruct (subscribe_frame res w) as [_ [H _]].
  - unfold exec. rewrite Hrun, (Hcs Hs); simpl. apply app_nil_r.
Qed.

Lemma no_client_call_unless_ready_witness :
  calls (exec (server Demo.env
                 (Demo.post "/api/send"
                    [Data ("{" ++ Demo.quoted "chatId" ++ ":" ++ Demo.quoted "1@c.us"
                           ++ "," ++ Demo.quoted "message" ++ ":" ++ Demo.quoted "hi"
                           ++ "}")%string; End]) 7)
           (initialWorld Demo.t0))
  = [].
Proof.
  apply (no_client_call_unless_ready Demo.env _ 7 (initialWorld Demo.t0)).
  simpl; discriminate.
Defined.

(** ** Invariants of the process *)

Lemma step_appState (env : Env) (a : Action) (w : World) :
  match a with
  | Emit ev _ => status (appState (step env a w)) = statusOf ev
  | LaunchError _ _ => status (appState (step env a w)) = "launch_error"
  | _ => appState (step env a w) = appState w
  end.
Proof.
  destruct a as [ev now|message now|message|req res|res|res|res o]; simpl.
  - destruct ev; unfold on, on_qr, on_authenticated, on_ready, on_auth_failure,
      on_disconnected; now rewrite appState_updateState.
  - unfold on_launch_error; now rewrite appState_updateState.
  - unfold on_message_create, exec; now rewrite broadcast_run.
  - now destruct (server_frame env req res w) as [H _].
  - now destruct (existsb _ _).
  - destruct (existsb _ _); [|reflexivity].
    unfold exec, keepAlive, write; simpl. now destruct (stream w res).
  - reflexivity.
Qed.

Lemma step_sseClients (env : Env) (a : Action) (w : World) :
  NoDup (sseClients w) -> NoDup (sseClients (step env a w)).
Proof.
  intro Hnd.
  destruct a as [ev now|message now|message|req res|res|res|res o]; simpl.
  - destruct ev; unfold on, on_qr, on_authenticated, on_ready, on_auth_failure,
      on_disconnected, exec; now rewrite updateState_run.
  - unfold on_launch_error, exec; now rewrite updateState_run.
  - unfold on_message_create, exec; now rewrite broadcast_run.
  - destruct (server_frame env req res w) as [_ [_ [[-> | ->] _]]];
      [assumption | now apply set_add_NoDup].
  - destruct (existsb _ _); [|assumption].
    unfold exec; rewrite on_close_run; simpl. now apply set_delete_NoDup.
  - destruct (existsb _ _); [|assumption].
    unfold exec, keepAlive, write; simpl. now destruct (stream w res).
  - assumption.
Qed.

(** X7. However the callbacks of the process interleave (lifecycle events,
    a launch failure, messages, requests, closes, timer ticks, streams
    breaking), the set of streams never holds a stream twice. *)
Theorem streams_stay_distinct (env : Env) (actions : list Action) (now : string) :
  NoDup (sseClients (run env actions (initialWorld now))).
Proof.
  assert (H : forall w, NoDup (sseClients w) -> NoDup (sseClients (run env actions w))).
  { induction actions as [|a rest IH]; intros w Hw; simpl; [assumption|].
    apply IH. now apply step_sseClients. }
  apply H. constructor.
Qed.

(** X8. However the callbacks interleave, the status is one of
    [starting], [qr], [authenticated], [ready], [auth_failure],
    [disconnected] and [launch_error]. *)
Theorem status_stays_known (env : Env) (actions : list Action) (now : string) :
  In (status (appState (run env actions (initialWorld now)))) statuses.
Proof.
  assert (H : forall w, In (status (appState w)) statuses ->
                        In (status (appState (run env actions w))) statuses).
  { induction actions as [|a rest IH]; intros w Hw; simpl; [assumption|].
    apply IH. assert (Hs := step_appState env a w).
    destruct a as [ev ?|? ?| | | | |]; try (now rewrite Hs).
    - rewrite Hs. destruct ev; simpl; tauto.
    - rewrite Hs. simpl; tauto. }
  apply H. simpl; tauto.
Qed.

(** X9. Only the lifecycle handlers and the launch failure change the
    session state: a message, a request, a close, a timer tick or a
    stream changing its answer leaves it as it is. *)
Theorem only_lifecycle_changes_state (env : Env) (a : Action) (w : World) :
  match a with
  | Emit _ _ | LaunchError _ _ => True
  | _ => appState (step env a w) = appState w
  end.
Proof.
  assert (H := step_appState env a w). destruct a; auto.
Qed.

(** ** Routes *)

(** X10. A request that is none of the routes is answered 404 with
    [Not found] and changes nothing: a GET whose path is neither a fixed
    path nor of the message-history shape, a POST to anything but
    [/api/send], and every other method. *)
Theorem unknown_route_answers_404
    (env : Env) (req : Request) (res : Res) (w : World) :
  (method req = "GET" ->
   ~ In (pathname req) ["/"; "/events"; "/api/state"; "/api/chats"; "/health"]
   /\ messagePathMatch (pathname req) = None) ->
  (method req = "POST" -> pathname req <> "/api/send") ->
  server env req res w = (Normal (Json 404 (BError "Not found")), w).
Proof.
  intros Hget Hpost. unfold server.
  destruct (method req =? "GET") eqn:Hm.
  - apply String.eqb_eq in Hm. destruct (Hget Hm) as [Hfixed Hshape].
    assert (Hne : forall p, In p ["/"; "/events"; "/api/state"; "/api/chats"; "/health"] ->
                            (pathname req =? p) = false).
    { intros p Hp. apply String.eqb_neq. intro Heq. apply Hfixed. now rewrite Heq. }
    rewrite (Hne "/"), (Hne "/events"), (Hne "/api/state"), (Hne "/api/chats"),
      (Hne "/health"), Hshape, Hm by (simpl; tauto).
    reflexivity.
  - simpl. destruct (method req =? "POST") eqn:Hp; simpl; [|reflexivity].
    apply String.eqb_eq in Hp. apply Hpost, String.eqb_neq in Hp.
    now rewrite Hp.
Qed.

Lemma unknown_route_answers_404_witness :
  server Demo.env (Demo.post "/api/chats" [End]) 7 Demo.readyWorld
  = (Normal (Json 404 (BError "Not found")), Demo.readyWorld)
  /\ server Demo.env (Demo.get "/api/chats/a/b/messages" None) 7 Demo.readyWorld
     = (Normal (Json 404 (BError "Not found")), Demo.readyWorld).
Proof.
  split.
  - apply (unknown_route_answers_404 Demo.env (Demo.post "/api/chats" [End]) 7).
    + simpl; discriminate.
    + simpl; discriminate.
  - apply (unknown_route_answers_404 Demo.env
             (Demo.get "/api/chats/a/b/messages" None) 7).
    + intros _. split; [simpl; intuition discriminate | reflexivity].
    + simpl; discriminate.
Defined.

Lemma stripPrefix_app (p s : string) : stripPrefix p (p ++ s) = Some s.
Proof.
  induction p as [|a p IH]; simpl; [reflexivity|].
  now rewrite Ascii.eqb_refl.
Qed.

Lemma spanSegment_spec (s seg tail : string) :
  spanSegment s = (seg, tail) ->
  s = (seg ++ tail)%string
  /\ ~ In "/"%char (list_ascii_of_string seg)
  /\ (tail = "" \/ exists t, tail = String "/" t).
Proof.
  revert seg tail; induction s as [|c s IH]; intros seg tail H; simpl in H.
  - inversion H; subst. simpl; tauto.
  - destruct (Ascii.eqb c "/") eqn:Hc.
    + apply Ascii.eqb_eq in Hc; subst c. inversion H; subst. simpl.
      split; [reflexivity|]. split; [tauto|]. right; now exists s.
    + destruct (spanSegment s) as [seg' tail'] eqn:Hs. inversion H; subst.
      destruct (IH seg' tail eq_refl) as [H1 [H2 H3]].
      split; [simpl; now rewrite <- H1|]. split; [|assumption].
      simpl. intros [Heq|Hin]; [|tauto].
      subst c. now rewrite Ascii.eqb_refl in Hc.
Qed.

Lemma spanSegment_app (seg t : string) :
  ~ In "/"%char (list_ascii_of_string seg) ->
  spanSegment (seg ++ String "/" t) = (seg, String "/" t).
Proof.
  induction seg as [|c seg IH]; simpl; intro H; [reflexivity|].
  destruct (Ascii.eqb c "/") eqn:Hc.
  - apply Ascii.eqb_eq in Hc. elim H; left; now symmetry.
  - rewrite IH by tauto. reflexivity.
Qed.

(** X11. The message-history pattern matches exactly the paths
    [/api/chats/] + group + [/messages] whose group is not empty and has
    no slash, and captures that group. *)
Theorem messagePathMatch_iff (p group : string) :
  messagePathMatch p = Some group
  <-> p = ("/api/chats/" ++ group ++ "/messages")%string
      /\ group <> ""
      /\ ~ In "/"%char (list_ascii_of_string group).
Proof.
  unfold messagePathMatch. split.
  - destruct (stripPrefix "/api/chats/" p) as [rest|] eqn:Hp; [|discriminate].
    apply stripPrefix_Some in Hp.
    destruct (spanSegment rest) as [seg tail] eqn:Hs.
    destruct (spanSegment_spec rest seg tail Hs) as [Hrest [Hno _]].
    destruct (negb (seg =? "")) eqn:Hne; simpl; [|discriminate].
    destruct (tail =? "/messages") eqn:Ht; [|discriminate].
    intro H; inversion H; subst group.
    apply String.eqb_eq in Ht. apply negb_true_iff, String.eqb_neq in Hne.
    subst tail. rewrite Hp, Hrest. auto.
  - intros [-> [Hne Hno]]. rewrite stripPrefix_app.
    change "/messages" with (String "/" "messages") at 1.
    rewrite (spanSegment_app group "messages" Hno).
    apply String.eqb_neq in Hne. rewrite Hne; simpl. reflexivity.
Qed.

(** ** The chat and history reads *)

(** X12. With the session ready, a failure of [getChats] is answered 500
    with the message of the failure, after that one call. *)
Theorem chat_list_failure_answers_500
    (env : Env) (w : World) (req : Request) (res : Res) (e : string) :
  method req = "GET" -> pathname req = "/api/chats" ->
  status (appState w) = "ready" ->
  getChats env = Rejected e ->
  server env req res w
  = (Normal (Json 500 (BError e)), addCalls [CallGetChats] w).
Proof.
  intros Hm Hp Hs He. unfold server. rewrite Hm, Hp; simpl.
  unfold bind, getState, callClient; simpl. rewrite Hs; simpl.
  now rewrite He.
Qed.

Lemma chat_list_failure_answers_500_witness :
  server (Demo.offline "Session closed") (Demo.get "/api/chats" None) 7
    Demo.readyWorld
  = (Normal (Json 500 (BError "Session closed")),
     addCalls [CallGetChats] Demo.readyWorld).
Proof.
  apply (chat_list_failure_answers_500 (Demo.offline "Session closed")
           Demo.readyWorld (Demo.get "/api/chats" None) 7 "Session closed");
    reflexivity.
Defined.

Lemma server_history_route (env : Env) (w : World) (req : Request) (res : Res)
    (group : string) :
  method req = "GET" -> messagePathMatch (pathname req) = Some group ->
  status (appState w) = "ready" ->
  server env req res w
  = match decodeURIComponent env group with
    | Rejected e => (Normal (Unhandled e), w)
    | Resolved chatId =>
        match getChatById env chatId with
        | Rejected e =>
            (Normal (Json 500 (BError e)), addCalls [CallGetChatById chatId] w)
        | Resolved chat =>
            (match fetchMessages env chat (effectiveLimit env (limit req)) with
             | Rejected e => Normal (Json 500 (BError e))
             | Resolved messages =>
                 Normal (Json 200
                           (BHistory (serializeChat chat)
                              (map serializeMessage (sort_by byTime messages))))
             end,
             addCalls [CallGetChatById chatId;
                       CallFetchMessages chat (effectiveLimit env (limit req))] w)
        end
    end.
Proof.
  intros Hm Hp Hs. unfold server.
  destruct (messagePath_not_fixed _ _ Hp) as [H1 [H2 [H3 H4]]].
  rewrite Hm, H1, H2, H3, H4, Hp; simpl.
  unfold bind, getState; simpl. rewrite Hs; simpl.
  destruct (decodeURIComponent env group) as [chatId|e]; [|reflexivity].
  unfold callClient; simpl.
  destruct (getChatById env chatId) as [chat|e]; [|reflexivity]. simpl.
  unfold addCalls; simpl. rewrite <- app_assoc; simpl.
  destruct (fetchMessages env chat _); reflexivity.
Qed.

(** X13. With the session ready, a chat id that does not resolve is
    answered 500 with the message of the failure and the messages are
    never asked for; a failure of the fetch itself is answered 500 with
    its message. *)
Theorem history_failure_answers_500
    (env : Env) (w : World) (req : Request) (res : Res)
    (group chatId : string) :
  method req = "GET" -> messagePathMatch (pathname req) = Some group ->
  status (appState w) = "ready" ->
  decodeURIComponent env group = Resolved chatId ->
  (forall e, getChatById env chatId = Rejected e ->
     server env req res w
     = (Normal (Json 500 (BError e)), addCalls [CallGetChatById chatId] w))
  /\ (forall chat e,
        getChatById env chatId = Resolved chat ->
        fetchMessages env chat (effectiveLimit env (limit req)) = Rejected e ->
        completion (server env req res) w = Normal (Json 500 (BError e))).
Proof.
  intros Hm Hp Hs Hd.
  unfold completion.
  rewrite (server_history_route env w req res group Hm Hp Hs), Hd. split.
  - intros e He. now rewrite He.
  - intros chat e Hc He. now rewrite Hc, He.
Qed.

Lemma history_failure_answers_500_witness :
  server (Demo.offline "No chat") (Demo.get "/api/chats/1@c.us/messages" None) 7
    Demo.readyWorld
  = (Normal (Json 500 (BError "No chat")),
     addCalls [CallGetChatById "1@c.us"] Demo.readyWorld).
Proof.
  apply (history_failure_answers_500 (Demo.offline "No chat") Demo.readyWorld
           (Demo.get "/api/chats/1@c.us/messages" None) 7 "1@c.us" "1@c.us");
    reflexivity.
Defined.

(** X14. With the session ready, a chat id whose escapes do not decode
    leaves the request without any answer (the error escapes the handler)
    and no call is made on the client. *)
Theorem undecodable_chat_id_is_not_answered
    (env : Env) (w : World) (req : Request) (res : Res) (group e : string) :
  method req = "GET" -> messagePathMatch (pathname req) = Some group ->
  status (appState w) = "ready" ->
  decodeURIComponent env group = Rejected e ->
  server env req res w = (Normal (Unhandled e), w).
Proof.
  intros Hm Hp Hs Hd.
  now rewrite (server_history_route env w req res group Hm Hp Hs), Hd.
Qed.

Lemma undecodable_chat_id_is_not_answered_witness :
  server Demo.env (Demo.get "/api/chats/%E0%A4%A/messages" None) 7 Demo.readyWorld
  = (Normal (Unhandled "URI malformed"), Demo.readyWorld).
Proof.
  apply (undecodable_chat_id_is_not_answered Demo.env Demo.readyWorld
           (Demo.get "/api/chats/%E0%A4%A/messages" None) 7 "%E0%A4%A");
    reflexivity.
Defined.

(** X15. With the session ready and both calls succeeding, the history is
    answered 200 with the projected chat and the projected messages in
    ascending order of timestamp, a missing timestamp counting as 0: the
    same messages, none lost or added. *)
Theorem history_is_chronological
    (env : Env) (w : World) (req : Request) (res : Res)
    (group chatId : string) (chat : RawChat) (messages : list RawMessage) :
  method req = "GET" -> messagePathMatch (pathname req) = Some group ->
  status (appState w) = "ready" ->
  decodeURIComponent env group = Resolved chatId ->
  getChatById env chatId = Resolved chat ->
  fetchMessages env chat (effectiveLimit env (limit req)) = Resolved messages ->
  let sent := map serializeMessage (sort_by byTime messages) in
  completion (server env req res) w
  = Normal (Json 200 (BHistory (serializeChat chat) sent))
  /\ Permutation sent (map serializeMessage messages)
  /\ StronglySorted
       (fun a b => (or_zero (m_timestamp a) <= or_zero (m_timestamp b))%Z) sent.
Proof.
  intros Hm Hp Hs Hd Hc Hf sent. unfold sent.
  split; [|split].
  - unfold completion.
    now rewrite (server_history_route env w req res group Hm Hp Hs), Hd, Hc, Hf.
  - apply Permutation_map, sort_by_perm.
  - assert (H := sort_by_sorted byTime
                   ltac:(unfold byTime; intros; lia)
                   ltac:(unfold byTime; intros; lia) messages).
    revert H. generalize (sort_by byTime messages).
    induction 1 as [|y rest Hsorted IH Hall]; simpl; constructor; [assumption|].
    apply Forall_map. eapply Forall_impl; [|exact Hall].
    unfold byTime; intros z Hz; simpl in *; lia.
Qed.

Lemma history_is_chronological_witness :
  completion (server (Demo.history [Demo.messageAt 30; Demo.messageAt 10;
                                    Demo.messageAt 20])
                (Demo.get "/api/chats/1@c.us/messages" None) 7) Demo.readyWorld
  = Normal (Json 200
              (BHistory (serializeChat (Demo.chat "1@c.us" (Some 5%Z)))
                 (map serializeMessage
                    [Demo.messageAt 10; Demo.messageAt 20; Demo.messageAt 30]))).
Proof.
  apply (history_is_chronological
           (Demo.history [Demo.messageAt 30; Demo.messageAt 10; Demo.messageAt 20])
           Demo.readyWorld (Demo.get "/api/chats/1@c.us/messages" None) 7
           "1@c.us" "1@c.us" (Demo.chat "1@c.us" (Some 5%Z))
           [Demo.messageAt 30; Demo.messageAt 10; Demo.messageAt 20]);
    reflexivity.
Defined.

(** ** The body of a request *)

(** Chunks within the limit only accumulate. *)
Lemma data_steps_accumulate (env : Env) (chunks : list string) (r : Reader) :
  promise r = None ->
  (strlen (body r) + fold_right N.add 0 (map strlen chunks) <= 1000000)%N ->
  fold_left (readerStep env) (map Data chunks) r
  = {| body := body r ++ fold_right String.append "" chunks; promise := None |}.
Proof.
  revert r; induction chunks as [|chunk rest IH]; intros r Hp Hlen;
    cbn [map fold_left fold_right] in *.
  - destruct r as [b p]; simpl in *; subst p. f_equal.
    clear. induction b as [|c b IH]; simpl; [reflexivity|now rewrite <- IH].
  - assert (Hstep : readerStep env r (Data chunk)
                    = {| body := body r ++ chunk; promise := None |}).
    { simpl. rewrite strlen_append.
      assert (Hle : (strlen (body r) + strlen chunk <= 1000000)%N) by lia.
      apply N.ltb_ge in Hle. rewrite Hle. now rewrite Hp. }
    rewrite Hstep, IH; simpl.
    + f_equal. clear. induction (body r) as [|c b IH]; simpl;
        [reflexivity | now rewrite IH].
    + reflexivity.
    + rewrite strlen_append. lia.
Qed.

(** X16. The promise of [readBody] keeps its first settlement: whatever
    the request stream emits afterwards changes nothing. *)
Theorem readBody_keeps_first_settlement
    (env : Env) (events more : list ReqEvent) (v : Fallible JsValue) :
  readBody env events = Some v -> readBody env (events ++ more) = Some v.
Proof.
  unfold readBody. intro H. rewrite fold_left_app. now apply fold_settled.
Qed.

Lemma readBody_keeps_first_settlement_witness :
  readBody Demo.env ([Data "{}"; End] ++ [Data "{bad"; End; Error "aborted"])
  = Some (Resolved (JObj [])).
Proof.
  apply (readBody_keeps_first_settlement Demo.env [Data "{}"; End]).
  reflexivity.
Defined.

(** X18. An error of the request stream before its end, with what arrived
    so far within the limit, rejects the promise with the message of that
    error; with the session ready [POST /api/send] then answers with that
    message, 400 when it contains [JSON] and 500 otherwise, and asks the
    client for nothing. *)
Theorem stream_error_is_answered_with_its_message
    (env : Env) (w : World) (req : Request) (res : Res)
    (chunks : list string) (message : string) (rest : list ReqEvent) :
  method req = "POST" -> pathname req = "/api/send" ->
  status (appState w) = "ready" ->
  bodyEvents req = map Data chunks ++ Error message :: rest ->
  (fold_right N.add 0 (map strlen chunks) <= 1000000)%N ->
  readBody env (bodyEvents req) = Some (Rejected message)
  /\ server env req res w
     = (Normal (Json (if includes message "JSON" then 400 else 500)
                  (BError message)), w).
Proof.
  intros Hm Hp Hs Hb Hlen.
  assert (Hread : readBody env (bodyEvents req) = Some (Rejected message)).
  { rewrite Hb. unfold readBody. rewrite fold_left_app.
    rewrite (data_steps_accumulate env chunks {| body := ""; promise := None |}
               eq_refl Hlen).
    cbn [fold_left]. apply fold_settled. reflexivity. }
  split; [exact Hread|].
  rewrite (server_send_route env w req res Hm Hp), Hs, Hread. reflexivity.
Qed.

Lemma stream_error_is_answered_with_its_message_witness :
  server Demo.env (Demo.post "/api/send" [Data "{"; Error "aborted"]) 7
    Demo.readyWorld
  = (Normal (Json 500 (BError "aborted")), Demo.readyWorld).
Proof.
  apply (stream_error_is_answered_with_its_message Demo.env Demo.readyWorld
           (Demo.post "/api/send" [Data "{"; Error "aborted"]) 7
           ["{"] "aborted" []);
    try reflexivity.
  vm_compute; discriminate.
Defined.

(** ** Sending *)

Lemma prefix_iff (sub s : string) :
  String.prefix sub s = true <-> exists post, s = (sub ++ post)%string.
Proof.
  revert s; induction sub as [|a sub IH]; intro s; simpl.
  - split; [intros _; now exists s | intros _; now destruct s].
  - destruct s as [|b s]; [split; [discriminate | intros [post H]; discriminate]|].
    simpl. destruct (ascii_dec a b) as [->|Hne].
    + rewrite IH. split; intros [post H]; exists post; [now rewrite H | now inversion H].
    + split; [discriminate|]. intros [post H]. inversion H. now elim Hne.
Qed.

(** [includes] is the substring test. *)
Lemma includes_iff (s sub : string) :
  includes s sub = true <-> exists pre post, s = (pre ++ sub ++ post)%string.
Proof.
  induction s as [|c s IH]; cbn [includes].
  - rewrite orb_false_r, prefix_iff. split.
    + intros [post H]. now exists "", post.
    + intros [pre [post H]]. destruct pre; [now exists post|discriminate].
  - rewrite orb_true_iff, prefix_iff, IH. split.
    + intros [[post H]|[pre [post H]]].
      * now exists "", post.
      * exists (String c pre), post. simpl. now rewrite H.
    + intros [pre [post H]]. destruct pre as [|a pre]; simpl in H.
      * left; now exists post.
      * right. inversion H. now exists pre, post.
Qed.

(** X19. With the session ready and [chatId] and [message] two
    non-empty strings, a failure of [sendMessage] is answered with its
    message after that one call, with status 400 exactly when the message
    contains the text [JSON], and 500 otherwise. *)
Theorem send_failure_is_400_only_if_message_names_JSON
    (env : Env) (w : World) (req : Request) (res : Res)
    (props : list (string * JsValue)) (chatId message e : string) :
  method req = "POST" -> pathname req = "/api/send" ->
  status (appState w) = "ready" ->
  readBody env (bodyEvents req) = Some (Resolved (JObj props)) ->
  lookup "chatId" props = Some (JStr chatId) -> chatId <> "" ->
  lookup "message" props = Some (JStr message) -> message <> "" ->
  sendMessage env chatId message = Rejected e ->
  exists statusCode,
    server env req res w
    = (Normal (Json statusCode (BError e)),
       addCalls [CallSendMessage chatId message] w)
    /\ (statusCode = 400%Z <-> exists pre post, e = (pre ++ "JSON" ++ post)%string)
    /\ (statusCode = 500%Z <-> ~ exists pre post, e = (pre ++ "JSON" ++ post)%string).
Proof.
  intros Hm Hp Hs Hb Hc Hcn Hmsg Hmn He.
  exists (if includes e "JSON" then 400%Z else 500%Z).
  split.
  - rewrite (server_send_route env w req res Hm Hp), Hs, Hb; simpl.
    rewrite Hc, Hmsg.
    destruct chatId; [now elim Hcn|]. destruct message; [now elim Hmn|].
    simpl. now rewrite He.
  - rewrite <- includes_iff.
    destruct (includes e "JSON"); split; split; congruence.
Qed.

Lemma send_failure_is_400_only_if_message_names_JSON_witness :
  server (Demo.offline "Unexpected end of JSON input")
    (Demo.post "/api/send"
       [Data ("{" ++ Demo.quoted "chatId" ++ ":" ++ Demo.quoted "1@c.us"
              ++ "," ++ Demo.quoted "message" ++ ":" ++ Demo.quoted "hi"
              ++ "}")%string; End]) 7 Demo.readyWorld
  = (Normal (Json 400 (BError "Unexpected end of JSON input")),
     addCalls [CallSendMessage "1@c.us" "hi"] Demo.readyWorld).
Proof.
  destruct (send_failure_is_400_only_if_message_names_JSON
              (Demo.offline "Unexpected end of JSON input") Demo.readyWorld
              (Demo.post "/api/send"
                 [Data ("{" ++ Demo.quoted "chatId" ++ ":" ++ Demo.quoted "1@c.us"
                        ++ "," ++ Demo.quoted "message" ++ ":" ++ Demo.quoted "hi"
                        ++ "}")%string; End]) 7
              [("chatId", JStr "1@c.us"); ("message", JStr "hi")]
              "1@c.us" "hi" "Unexpected end of JSON input"
              eq_refl eq_refl eq_refl eq_refl eq_refl)
    as [statusCode [Hrun [H400 _]]];
    [discriminate | reflexivity | discriminate | reflexivity |].
  rewrite Hrun.
  assert (Hcode : statusCode = 400%Z)
    by (apply H400; now exists "Unexpected end of ", " input").
  now rewrite Hcode.
Defined.

(** X20. With the session ready and [chatId] and [message] two
    non-empty strings, a send that succeeds is answered 200 with the
    projection of the message sent, after exactly one call of
    [sendMessage] with these two strings; the handler itself writes to no
    event stream. *)
Theorem send_success_answers_200
    (env : Env) (w : World) (req : Request) (res : Res)
    (props : list (string * JsValue)) (chatId message : string) (sent : RawMessage) :
  method req = "POST" -> pathname req = "/api/send" ->
  status (appState w) = "ready" ->
  readBody env (bodyEvents req) = Some (Resolved (JObj props)) ->
  lookup "chatId" props = Some (JStr chatId) -> chatId <> "" ->
  lookup "message" props = Some (JStr message) -> message <> "" ->
  sendMessage env chatId message = Resolved sent ->
  server env req res w
  = (Normal (Json 200 (BSent (serializeMessage sent))),
     addCalls [CallSendMessage chatId message] w)
  /\ writes (exec (server env req res) w) = writes w.
Proof.
  intros Hm Hp Hs Hb Hc Hcn Hmsg Hmn He.
  assert (Hrun : server env req res w
                 = (Normal (Json 200 (BSent (serializeMessage sent))),
                    addCalls [CallSendMessage chatId message] w)).
  { rewrite (server_send_route env w req res Hm Hp), Hs, Hb; simpl.
    rewrite Hc, Hmsg.
    destruct chatId; [now elim Hcn|]. destruct message; [now elim Hmn|].
    simpl. now rewrite He. }
  split; [exact Hrun|]. unfold exec. now rewrite Hrun.
Qed.

Lemma send_success_answers_200_witness :
  server Demo.env
    (Demo.post "/api/send"
       [Data ("{" ++ Demo.quoted "chatId" ++ ":" ++ Demo.quoted "1@c.us"
              ++ "," ++ Demo.quoted "message" ++ ":" ++ Demo.quoted "hi"
              ++ "}")%string; End]) 7 Demo.readyWorld
  = (Normal (Json 200 (BSent (serializeMessage (Demo.message "1@c.us" "hi")))),
     addCalls [CallSendMessage "1@c.us" "hi"] Demo.readyWorld).
Proof.
  apply (send_success_answers_200 Demo.env Demo.readyWorld
           (Demo.post "/api/send"
              [Data ("{" ++ Demo.quoted "chatId" ++ ":" ++ Demo.quoted "1@c.us"
                     ++ "," ++ Demo.quoted "message" ++ ":" ++ Demo.quoted "hi"
                     ++ "}")%string; End]) 7
           [("chatId", JStr "1@c.us"); ("message", JStr "hi")]
           "1@c.us" "hi" (Demo.message "1@c.us" "hi"));
    try reflexivity; discriminate.
Defined.

(** X21. With the session ready, a body that parses to anything but
    [null] is refused with 400 and [chatId is required.] unless its
    [chatId] is a non-empty string (so for a number, a string, an array,
    an object without the key or with a key of another type), and with 400
    and [message is required.] when [chatId] passes and [message] is not a
    non-empty string; neither case asks the client for anything. *)
Theorem send_requires_two_non_empty_strings
    (env : Env) (w : World) (req : Request) (res : Res) (v : JsValue) :
  method req = "POST" -> pathname req = "/api/send" ->
  status (appState w) = "ready" ->
  readBody env (bodyEvents req) = Some (Resolved v) ->
  v <> JNull ->
  ((forall s, prop v "chatId" = Some (JStr s) -> s = "") ->
   server env req res w
   = (Normal (Json 400 (BError "chatId is required.")), w))
  /\ (forall chatId,
        prop v "chatId" = Some (JStr chatId) -> chatId <> "" ->
        (forall s, prop v "message" = Some (JStr s) -> s = "") ->
        server env req res w
        = (Normal (Json 400 (BError "message is required.")), w)).
Proof.
  intros Hm Hp Hs Hb Hnull.
  rewrite (server_send_route env w req res Hm Hp), Hs, Hb; simpl.
  assert (Hnone : forall x, (forall s, x = Some (JStr s) -> s = "") ->
                            nonEmptyString x = None).
  { intros x Hx. destruct (nonEmptyString x) as [s|] eqn:Hn; [|reflexivity].
    apply nonEmptyString_Some in Hn. destruct Hn as [-> Hne].
    now elim Hne; apply Hx. }
  split.
  - intro Hc. destruct v; try (now elim Hnull); simpl in *;
      try reflexivity; now rewrite (Hnone _ Hc).
  - intros chatId Hc Hcn Hmsg.
    destruct v; try (now elim Hnull); simpl in *; try discriminate.
    rewrite Hc, (Hnone _ Hmsg). destruct chatId; [now elim Hcn|reflexivity].
Qed.

Lemma send_requires_two_non_empty_strings_witness :
  server Demo.env (Demo.post "/api/send" [Data "[1,2]"; End]) 7 Demo.readyWorld
  = (Normal (Json 400 (BError "chatId is required.")), Demo.readyWorld)
  /\ server Demo.env
       (Demo.post "/api/send"
          [Data ("{" ++ Demo.quoted "chatId" ++ ":" ++ Demo.quoted "1@c.us"
                 ++ "," ++ Demo.quoted "message" ++ ":7}")%string; End]) 7
       Demo.readyWorld
     = (Normal (Json 400 (BError "message is required.")), Demo.readyWorld).
Proof.
  split.
  - apply (send_requires_two_non_empty_strings Demo.env Demo.readyWorld
             (Demo.post "/api/send" [Data "[1,2]"; End]) 7
             (JArr [JNum (Fin (1 # 1)%Q); JNum (Fin (2 # 1)%Q)]));
      try reflexivity; discriminate.
  - apply (send_requires_two_non_empty_strings Demo.env Demo.readyWorld
             (Demo.post "/api/send"
                [Data ("{" ++ Demo.quoted "chatId" ++ ":" ++ Demo.quoted "1@c.us"
                       ++ "," ++ Demo.quoted "message" ++ ":7}")%string; End]) 7
             (JObj [("chatId", JStr "1@c.us"); ("message", JNum (Fin (7 # 1)%Q))]))
      with (chatId := "1@c.us");
      try reflexivity; discriminate.
Defined.

(** ** The chat list, further *)

Lemma or_zero_or_null (x : option Z) : or_zero (or_null x) = or_zero x.
Proof. destruct x as [[| |]|]; reflexivity. Qed.

Lemma firstn_In {A : Type} (n : nat) (l : list A) (x : A) :
  In x (firstn n l) -> In x l.
Proof.
  intro H. rewrite <- (firstn_skipn n l). apply in_or_app; now left.
Qed.

Lemma StronglySorted_firstn {A : Type} (R : A -> A -> Prop) (n : nat) (l : list A) :
  StronglySorted R l -> StronglySorted R (firstn n l).
Proof.
  revert n; induction l as [|x l IH]; intros n H.
  - rewrite firstn_nil; constructor.
  - destruct n as [|n]; simpl; [constructor|].
    inversion H as [|? ? Hl Hall]; subst.
    constructor; [now apply IH|].
    apply Forall_forall. intros y Hy.
    apply (proj1 (Forall_forall _ _) Hall). eapply firstn_In; eassumption.
Qed.

Lemma sorted_by_recency (chats : list RawChat) :
  StronglySorted
    (fun a b => (or_zero (rc_timestamp b) <= or_zero (rc_timestamp a))%Z)
    (sort_by byRecency chats).
Proof.
  assert (H := sort_by_sorted byRecency
                 ltac:(unfold byRecency; intros; lia)
                 ltac:(unfold byRecency; intros; lia) chats).
  revert H. generalize (sort_by byRecency chats).
  induction 1 as [|y rest Hsorted IH Hall]; constructor; [assumption|].
  eapply Forall_impl; [|exact Hall].
  unfold byRecency; intros z Hz; simpl in Hz; lia.
Qed.

Lemma server_chats_ready (env : Env) (w : World) (req : Request) (res : Res)
    (chats : list RawChat) :
  method req = "GET" -> pathname req = "/api/chats" ->
  status (appState w) = "ready" ->
  getChats env = Resolved chats ->
  server env req res w
  = (Normal (Json 200 (BChats (sortedChats env chats))),
     addCalls [CallGetChats] w).
Proof.
  intros Hm Hp Hs Hc. unfold server. rewrite Hm, Hp; simpl.
  unfold bind, getState, callClient; simpl. rewrite Hs; simpl.
  now rewrite Hc.
Qed.

(** X22. The chats of a 200 answer are in descending order of the
    timestamps the answer itself shows (a [null] timestamp counting as 0),
    each is the projection of a chat of the client, and their number is
    the configured maximum or the number of chats of the client, whichever
    is smaller. *)
Theorem chat_list_is_ordered_and_bounded
    (env : Env) (w : World) (req : Request) (res : Res)
    (chats : list RawChat) (q : Q) :
  method req = "GET" -> pathname req = "/api/chats" ->
  status (appState w) = "ready" ->
  getChats env = Resolved chats ->
  MAX_CHAT_COUNT env = Fin q -> (0 <= truncate q)%Z ->
  let out := sortedChats env chats in
  completion (server env req res) w = Normal (Json 200 (BChats out))
  /\ StronglySorted
       (fun a b => (or_zero (c_timestamp b) <= or_zero (c_timestamp a))%Z) out
  /\ List.length out = Nat.min (Z.to_nat (truncate q)) (List.length chats)
  /\ (forall c, In c out -> exists raw, In raw chats /\ c = serializeChat raw).
Proof.
  intros Hm Hp Hs Hc Hmax Hq out.
  assert (Hout : out = map serializeChat
                         (firstn (Z.to_nat (truncate q)) (sort_by byRecency chats))).
  { unfold out, sortedChats. now rewrite Hmax, slice0_firstn. }
  split; [|split; [|split]].
  - unfold completion. now rewrite (server_chats_ready env w req res chats).
  - rewrite Hout.
    assert (H := StronglySorted_firstn _ (Z.to_nat (truncate q)) _
                   (sorted_by_recency chats)).
    revert H. generalize (firstn (Z.to_nat (truncate q)) (sort_by byRecency chats)).
    induction 1 as [|y rest Hsorted IH Hall]; simpl; constructor; [assumption|].
    apply Forall_map. eapply Forall_impl; [|exact Hall].
    intros z Hz; simpl in *. now rewrite !or_zero_or_null.
  - rewrite Hout, length_map, length_firstn.
    now rewrite (Permutation_length (sort_by_perm byRecency chats)).
  - intros c Hin. rewrite Hout in Hin. apply in_map_iff in Hin.
    destruct Hin as [raw [Heq Hraw]]. exists raw. split; [|now symmetry].
    apply (Permutation_in _ (sort_by_perm byRecency chats)).
    eapply firstn_In; eassumption.
Qed.

Lemma chat_list_is_ordered_and_bounded_witness :
  completion (server (Demo.capped "2") (Demo.get "/api/chats" None) 7)
    Demo.readyWorld
  = Normal (Json 200
              (BChats (map serializeChat
                         [Demo.chat "a" (Some 5%Z); Demo.chat "c" (Some 3%Z)]))).
Proof.
  apply (chat_list_is_ordered_and_bounded (Demo.capped "2") Demo.readyWorld
           (Demo.get "/api/chats" None) 7 Demo.threeChats (2 # 1)%Q);
    try reflexivity.
  discriminate.
Defined.

Lemma insert_by_filter (k : Z) (x : RawChat) (l : list RawChat) :
  filter (fun c => (or_zero (rc_timestamp c) =? k)%Z) (insert_by byRecency x l)
  = filter (fun c => (or_zero (rc_timestamp c) =? k)%Z) (x :: l).
Proof.
  induction l as [|y rest IH]; [reflexivity|].
  cbn [insert_by]. destruct (byRecency x y <=? 0)%Z eqn:Hxy; [reflexivity|].
  apply Z.leb_gt in Hxy. unfold byRecency in Hxy.
  cbn [filter] in *. rewrite IH.
  destruct (or_zero (rc_timestamp x) =? k)%Z eqn:Hx;
    destruct (or_zero (rc_timestamp y) =? k)%Z eqn:Hy; try reflexivity.
  apply Z.eqb_eq in Hx, Hy. lia.
Qed.

(** X23. The sort of the chat list is stable: the chats that share a
    timestamp (a missing one counting as 0) come out in the order in which
    the client returned them. *)
Theorem chat_sort_is_stable (chats : list RawChat) (k : Z) :
  filter (fun c => (or_zero (rc_timestamp c) =? k)%Z) (sort_by byRecency chats)
  = filter (fun c => (or_zero (rc_timestamp c) =? k)%Z) chats.
Proof.
  induction chats as [|x rest IH]; [reflexivity|].
  cbn [sort_by]. rewrite insert_by_filter. cbn [filter]. now rewrite IH.
Qed.

(** X24. The configured maximum is passed to [slice] as it is: when
    [MAX_CHAT_COUNT] is not a number the answer holds no chat at all, and
    when its integer part is a negative [-k] the answer drops the [k]
    oldest chats instead of keeping the newest. *)
Theorem chat_list_cap_edge_cases
    (env : Env) (w : World) (req : Request) (res : Res) (chats : list RawChat) :
  method req = "GET" -> pathname req = "/api/chats" ->
  status (appState w) = "ready" ->
  getChats env = Resolved chats ->
  (MAX_CHAT_COUNT env = NaN ->
   completion (server env req res) w = Normal (Json 200 (BChats [])))
  /\ (forall q, MAX_CHAT_COUNT env = Fin q -> (truncate q < 0)%Z ->
        completion (server env req res) w
        = Normal (Json 200
                    (BChats (map serializeChat
                               (firstn (List.length chats - Z.to_nat (- truncate q))
                                  (sort_by byRecency chats)))))).
Proof.
  intros Hm Hp Hs Hc. unfold completion.
  rewrite (server_chats_ready env w req res chats Hm Hp Hs Hc); simpl.
  unfold sortedChats. split.
  - intros ->. reflexivity.
  - intros q -> Hq. unfold slice0.
    apply Z.ltb_lt in Hq. rewrite Hq. apply Z.ltb_lt in Hq.
    rewrite (Permutation_length (sort_by_perm byRecency chats)).
    do 4 f_equal. f_equal. lia.
Qed.

Lemma chat_list_cap_edge_cases_witness :
  completion (server (Demo.capped "many") (Demo.get "/api/chats" None) 7)
    Demo.readyWorld
  = Normal (Json 200 (BChats []))
  /\ completion (server (Demo.capped "-1") (Demo.get "/api/chats" None) 7)
       Demo.readyWorld
     = Normal (Json 200
                 (BChats (map serializeChat
                            [Demo.chat "a" (Some 5%Z); Demo.chat "c" (Some 3%Z)]))).
Proof.
  split.
  - apply (chat_list_cap_edge_cases (Demo.capped "many") Demo.readyWorld
             (Demo.get "/api/chats" None) 7 Demo.threeChats);
      reflexivity.
  - destruct (chat_list_cap_edge_cases (Demo.capped "-1") Demo.readyWorld
                (Demo.get "/api/chats" None) 7 Demo.threeChats
                eq_refl eq_refl eq_refl eq_refl) as [_ H].
    apply (H (inject_Z (-1))); reflexivity.
Defined.

(** X25. A chat always gets a name when its id has a user part: the
    projected name is the chat's name, else its formatted title, else the
    user part of its id, the first of these that is not empty. *)
Theorem serializeChat_name_falls_back (chat : RawChat) :
  (rc_user chat <> "" -> c_name (serializeChat chat) <> "")
  /\ (forall n, rc_name chat = Some n -> n <> "" -> c_name (serializeChat chat) = n)
  /\ (rc_name chat = None \/ rc_name chat = Some "" ->
      forall t, rc_formattedTitle chat = Some t -> t <> "" ->
                c_name (serializeChat chat) = t)
  /\ (rc_name chat = None \/ rc_name chat = Some "" ->
      rc_formattedTitle chat = None \/ rc_formattedTitle chat = Some "" ->
      c_name (serializeChat chat) = rc_user chat).
Proof.
  destruct chat as [id user name title g u t l a p]; simpl.
  split; [|split; [|split]].
  - intro Hu. destruct name as [[|c n]|]; destruct title as [[|c' t']|];
      simpl; try assumption; discriminate.
  - intros n -> Hn. destruct n; [now elim Hn|reflexivity].
  - intros [-> | ->] t' -> Ht; destruct t'; (now elim Ht) || reflexivity.
  - intros [-> | ->] [-> | ->]; reflexivity.
Qed.

(** ** The launch failure and the keep-alive *)

(** X26. When the client fails to initialise, the state takes the status
    [launch_error], the message of the failure as [authFailure] and no QR
    code, keeps its info and its disconnect reason, is stamped with the
    instant, and the new state is broadcast as it is after the change. *)
Theorem launch_error_is_recorded_and_broadcast
    (w : World) (message now : string) :
  let w' := exec (on_launch_error message now) w in
  status (appState w') = "launch_error"
  /\ authFailure (appState w') = Some message
  /\ qr (appState w') = None
  /\ info (appState w') = info (appState w)
  /\ disconnectedReason (appState w') = disconnectedReason (appState w)
  /\ lastUpdateAt (appState w') = now
  /\ sseClients w' = sseClients w
  /\ writes w'
     = writes w
       ++ map (callOn w (FEvent "state" (PState (appState w'))))
            (reached (stream w) (sseClients w)).
Proof.
  unfold on_launch_error, exec. rewrite updateState_run; simpl.
  repeat split; reflexivity.
Qed.

(** X27. A tick of a keep-alive timer writes a comment, which is no named
    event: the first named event of every stream and the state are as
    before; and once the close listener of a stream has run, its timer
    ticks no more. *)
Theorem keep_alive_is_no_event (env : Env) (w : World) (res r : Res) :
  firstEvent (received r (step env (Tick res) w)) = firstEvent (received r w)
  /\ appState (step env (Tick res) w) = appState w
  /\ step env (Tick res) (step env (Close res) w) = step env (Close res) w.
Proof.
  assert (Hfirst : forall fs t, firstEvent (fs ++ [FComment t]) = firstEvent fs).
  { intros fs t. induction fs as [|f fs IH]; [reflexivity|].
    destruct f; simpl; auto. }
  split; [|split].
  - simpl. destruct (existsb (Nat.eqb res) (intervals w)); [|reflexivity].
    unfold exec, keepAlive, write, received, logWrite; simpl.
    destruct (stream w res) eqn:Hres; simpl;
      rewrite filter_app; simpl; rewrite ?Hres; simpl;
      destruct (Nat.eqb res r); simpl;
      rewrite ?app_nil_r, ?map_app; simpl; auto.
  - apply (step_appState env (Tick res) w).
  - simpl. destruct (existsb (Nat.eqb res) (intervals w)) eqn:Hin.
    + unfold exec at 1 2. rewrite on_close_run; simpl.
      assert (Hout : existsb (Nat.eqb res) (set_delete res (intervals w)) = false).
      { destruct (existsb (Nat.eqb res) (set_delete res (intervals w))) eqn:H;
          [|reflexivity].
        apply existsb_exists in H. destruct H as [x [Hx Heq]].
        apply Nat.eqb_eq in Heq; subst x. apply set_delete_In in Hx. tauto. }
      now rewrite Hout.
    + now rewrite Hin.
Qed.

(** ** The body of a request, by chunks *)

(** X17. An ASCII body within the size limit is read as the concatenation
    of its chunks, however it is cut: at the end of the stream the promise
    resolves to the empty object when there is no text, to what
    [JSON.parse] makes of the whole text when it parses, and rejects with
    [Invalid JSON payload] when it does not. *)
Theorem readBody_joins_ascii_chunks
    (env : Env) (chunks : list string) (rest : list ReqEvent) :
  forallb isAscii chunks = true ->
  (fold_right N.add 0 (map strlen chunks) <= 1000000)%N ->
  readBody env (map Data chunks ++ End :: rest)
  = Some match fold_right String.append "" chunks with
         | EmptyString => Resolved (JObj [])
         | text =>
             match JSON_parse env text with
             | Some v => Resolved v
             | None => Rejected "Invalid JSON payload"
             end
         end.
Proof.
  intros _ Hlen. unfold readBody. rewrite fold_left_app.
  rewrite (data_steps_accumulate env chunks {| body := ""; promise := None |}
             eq_refl Hlen).
  cbn [fold_left body]. apply fold_settled.
  change ("" ++ fold_right String.append "" chunks)%string
    with (fold_right String.append "" chunks).
  unfold readerStep; cbn [body].
  destruct (fold_right String.append "" chunks) as [|c text]; [reflexivity|].
  destruct (JSON_parse env (String c text)); reflexivity.
Qed.

Lemma readBody_joins_ascii_chunks_witness :
  readBody Demo.env
    (map Data ["{"; Demo.quoted "chatId"; ":"; Demo.quoted "123"; "}"] ++ [End])
  = Some (Resolved (JObj [("chatId", JStr "123")])).
Proof.
  rewrite (readBody_joins_ascii_chunks Demo.env
             ["{"; Demo.quoted "chatId"; ":"; Demo.quoted "123"; "}"] []).
  - reflexivity.
  - reflexivity.
  - vm_compute; discriminate.
Defined.

(** ** Leaving the set of streams *)

Lemma step_removes_only_on_close (env : Env) (a : Action) (w : World) (r : Res) :
  In r (sseClients w) -> ~ In r (sseClients (step env a w)) -> a = Close r.
Proof.
  intros Hin Hout.
  destruct a as [ev now|message now|message|req res|res|res|res o];
    simpl in Hout.
  - exfalso; apply Hout.
    destruct ev; unfold on, on_qr, on_authenticated, on_ready, on_auth_failure,
      on_disconnected, exec; now rewrite updateState_run.
  - exfalso; apply Hout.
    unfold on_launch_error, exec; now rewrite updateState_run.
  - exfalso; apply Hout.
    unfold on_message_create, exec; now rewrite broadcast_run.
  - exfalso; apply Hout.
    destruct (server_frame env req res w) as [_ [_ [[-> | ->] _]]];
      [assumption | apply set_add_In; now left].
  - destruct (existsb (Nat.eqb res) (intervals w)); [|now elim Hout].
    unfold exec in Hout; rewrite on_close_run in Hout; simpl in Hout.
    rewrite set_delete_In in Hout.
    destruct (Nat.eq_dec r res) as [-> | Hne]; [reflexivity|].
    elim Hout; now split.
  - exfalso; apply Hout.
    destruct (existsb (Nat.eqb res) (intervals w)); [|assumption].
    unfold exec, keepAlive, write; simpl. now destruct (stream w res).
  - now elim Hout.
Qed.

(** C4, as the code has it. [broadcast] writes the frame to the registered
    streams in insertion order and never changes the set of streams. When
    no write raises, every stream is written, the failing ones included,
    and none is removed. When a write raises, the loop ends there with that
    exception: the streams before it and the raising one are written, the
    ones after it are not, and the raising stream stays registered. Of all
    the callbacks of the process (lifecycle events, the launch failure,
    messages, requests, closes, timer ticks, a stream changing its answer)
    only the close listener of a stream takes that stream out of the
    set. *)
Theorem broadcast_stops_at_throw_only_close_removes
    (env : Env) (w : World) (event : string) (data : Payload) :
  let w' := exec (broadcast event data) w in
  let call := callOn w (FEvent event data) in
  sseClients w' = sseClients w
  /\ appState w' = appState w
  /\ ((forall res e, In res (sseClients w) -> stream w res <> Thrown e) ->
      writes w' = writes w ++ map call (sseClients w)
      /\ completion (broadcast event data) w = Normal tt)
  /\ (forall before res after e,
         sseClients w = before ++ res :: after ->
         (forall r e', In r before -> stream w r <> Thrown e') ->
         stream w res = Thrown e ->
         writes w' = writes w ++ map call (before ++ [res])
         /\ completion (broadcast event data) w = Throw e)
  /\ (forall a r,
         In r (sseClients w) -> ~ In r (sseClients (step env a w)) ->
         a = Close r).
Proof.
  unfold exec, completion; rewrite broadcast_run; simpl.
  split; [reflexivity|]. split; [reflexivity|]. split; [|split].
  - intro Hok. now rewrite (reached_all _ _ Hok), (loopEnd_normal _ _ Hok).
  - intros before res after e Hl Hbefore Hres. rewrite Hl.
    destruct (reached_until_throw (stream w) before after res e Hbefore Hres)
      as [Hreached Hend].
    now rewrite Hreached, Hend.
  - intros a r. apply step_removes_only_on_close.
Qed.

Lemma broadcast_stops_at_throw_only_close_removes_witness :
  (writes (exec (broadcast "state" (PState (initialState Demo.t0)))
             (Demo.fanout Failed))
   = map (callOn (Demo.fanout Failed)
            (FEvent "state" (PState (initialState Demo.t0)))) [1; 2; 3]
   /\ completion (broadcast "state" (PState (initialState Demo.t0)))
        (Demo.fanout Failed) = Normal tt)
  /\ (writes (exec (broadcast "state" (PState (initialState Demo.t0)))
                (Demo.fanout (Thrown "EPIPE")))
      = map (callOn (Demo.fanout (Thrown "EPIPE"))
               (FEvent "state" (PState (initialState Demo.t0)))) [1; 2]
      /\ completion (broadcast "state" (PState (initialState Demo.t0)))
           (Demo.fanout (Thrown "EPIPE")) = Throw "EPIPE")
  /\ (sseClients (step Demo.env (Close 2) (Demo.fanout (Thrown "EPIPE"))) = [1; 3]
      /\ (forall a,
             ~ In 2 (sseClients (step Demo.env a (Demo.fanout (Thrown "EPIPE")))) ->
             a = Close 2)).
Proof.
  split; [|split].
  - apply (broadcast_stops_at_throw_only_close_removes Demo.env
             (Demo.fanout Failed) "state" (PState (initialState Demo.t0))).
    intros res e [<- | [<- | [<- | []]]]; simpl; discriminate.
  - destruct (broadcast_stops_at_throw_only_close_removes Demo.env
                (Demo.fanout (Thrown "EPIPE"))
                "state" (PState (initialState Demo.t0))) as [_ [_ [_ [H _]]]].
    apply (H [1] 2 [3] "EPIPE").
    + reflexivity.
    + intros r e' [<- | []]; simpl; discriminate.
    + reflexivity.
  - split; [reflexivity|].
    destruct (broadcast_stops_at_throw_only_close_removes Demo.env
                (Demo.fanout (Thrown "EPIPE"))
                "state" (PState (initialState Demo.t0))) as [_ [_ [_ [_ H]]]].
    intros a Hout. apply (H a 2); [simpl; auto | exact Hout].
Defined.

(** ** The chat list as it is answered *)

Lemma slice0_keptChats (env : Env) (chats : list RawChat) :
  slice0 (sort_by byRecency chats) (MAX_CHAT_COUNT env)
  = keptChats env (List.length chats) (sort_by byRecency chats).
Proof.
  unfold keptChats.
  destruct (MAX_CHAT_COUNT env) as [| | |q]; try reflexivity.
  destruct (truncate q <? 0)%Z eqn:Hq.
  - unfold slice0; cbv zeta. rewrite Hq. apply Z.ltb_lt in Hq.
    rewrite (Permutation_length (sort_by_perm byRecency chats)).
    replace (Z.to_nat (Z.max (Z.of_nat (List.length chats) + truncate q) 0))
      with (List.length chats - Z.to_nat (- truncate q))%nat by lia.
    reflexivity.
  - apply Z.ltb_ge in Hq. now apply slice0_firstn.
Qed.

Lemma keptChats_sorted (env : Env) (n : nat) (sorted : list RawChat)
    (R : RawChat -> RawChat -> Prop) :
  StronglySorted R sorted -> StronglySorted R (keptChats env n sorted).
Proof.
  intro H. unfold keptChats.
  destruct (MAX_CHAT_COUNT env) as [| | |q]; try constructor; try assumption.
  destruct (truncate q <? 0)%Z; now apply StronglySorted_firstn.
Qed.

Lemma serializeChat_projects (raw : RawChat) : projects raw (serializeChat raw).
Proof.
  destruct raw as [id user name title g u t l a p]; unfold projects; simpl.
  repeat split; try reflexivity.
  - destruct name as [[|c n]|]; destruct title as [[|c' t']|]; reflexivity.
  - destruct l as [[|c b]|]; reflexivity.
Qed.

(** C7. With the session ready, [GET /api/chats] answers 200 with the
    chats of the client (the same chats, none lost or added by the sort)
    put in descending order of timestamp, a missing timestamp counting as
    0, then cut by [slice(0, MAX_CHAT_COUNT)], then projected field by
    field to the Chat shape. The chats of the answer are in descending
    order of the timestamps the answer shows; for a maximum that is a
    count their number is the smaller of that count and the number of
    chats; and chats with timestamps 5, none, 3 are answered in the order
    5, 3, none. *)
Theorem chat_list_sorted_truncated_projected
    (env : Env) (w : World) (req : Request) (res : Res) (chats : list RawChat) :
  method req = "GET" -> pathname req = "/api/chats" ->
  status (appState w) = "ready" ->
  getChats env = Resolved chats ->
  let sorted := sort_by byRecency chats in
  let kept := keptChats env (List.length chats) sorted in
  let out := map serializeChat kept in
  completion (server env req res) w = Normal (Json 200 (BChats out))
  /\ Permutation sorted chats
  /\ StronglySorted
       (fun a b => (or_zero (rc_timestamp b) <= or_zero (rc_timestamp a))%Z)
       sorted
  /\ Forall2 projects kept out
  /\ StronglySorted
       (fun a b => (or_zero (c_timestamp b) <= or_zero (c_timestamp a))%Z) out
  /\ (forall q, MAX_CHAT_COUNT env = Fin q -> (0 <= truncate q)%Z ->
        kept = firstn (Z.to_nat (truncate q)) sorted
        /\ List.length out = Nat.min (Z.to_nat (truncate q)) (List.length chats))
  /\ (forall a b c q,
        rc_timestamp a = Some 5%Z -> rc_timestamp b = None ->
        rc_timestamp c = Some 3%Z -> chats = [a; b; c] ->
        MAX_CHAT_COUNT env = Fin q -> (3 <= truncate q)%Z ->
        Forall2 projects [a; c; b] out
        /\ map c_timestamp out = [Some 5%Z; Some 3%Z; None]).
Proof.
  intros Hm Hp Hs Hc sorted kept out. unfold out.
  assert (Hfirstn : forall q, MAX_CHAT_COUNT env = Fin q -> (0 <= truncate q)%Z ->
                              kept = firstn (Z.to_nat (truncate q)) sorted).
  { intros q Hq Hge. unfold kept, keptChats. rewrite Hq.
    destruct (truncate q <? 0)%Z eqn:Hneg; [apply Z.ltb_lt in Hneg; lia|reflexivity]. }
  assert (Hproj : forall l, Forall2 projects l (map serializeChat l)).
  { induction l as [|x l IH]; simpl; constructor;
      [apply serializeChat_projects | assumption]. }
  split; [|split; [|split; [|split; [|split; [|split]]]]].
  - unfold completion.
    rewrite (server_chats_ready env w req res chats Hm Hp Hs Hc); simpl.
    unfold sortedChats. now rewrite slice0_keptChats.
  - apply sort_by_perm.
  - apply sorted_by_recency.
  - apply Hproj.
  - assert (H := keptChats_sorted env (List.length chats) sorted _
                   (sorted_by_recency chats)).
    fold kept in H. revert H. generalize kept.
    induction 1 as [|y rest Hsorted IH Hall]; simpl; constructor; [assumption|].
    apply Forall_map. eapply Forall_impl; [|exact Hall].
    intros z Hz; simpl in *. now rewrite !or_zero_or_null.
  - intros q Hq Hge. split; [now apply Hfirstn|].
    rewrite (Hfirstn q Hq Hge), length_map, length_firstn. unfold sorted.
    now rewrite (Permutation_length (sort_by_perm byRecency chats)).
  - intros a b c q Ha Hb Hcc Hchats Hq Hge.
    assert (Hkept : kept = [a; c; b]).
    { rewrite (Hfirstn q Hq) by lia. unfold sorted. rewrite Hchats.
      assert (Hs3 : sort_by byRecency [a; b; c] = [a; c; b])
        by (destruct a, b, c; simpl in Ha, Hb, Hcc; subst; reflexivity).
      rewrite Hs3. apply firstn_all2. simpl. lia. }
    rewrite Hkept. split; [apply Hproj|].
    simpl. now rewrite Ha, Hb, Hcc.
Qed.

Lemma chat_list_sorted_truncated_projected_witness :
  (completion (server (Demo.capped "2") (Demo.get "/api/chats" None) 7)
     Demo.readyWorld
   = Normal (Json 200
               (BChats
                  [{| c_id := "a@c.us"; c_name := "a"; c_isGroup := false;
                      c_unreadCount := 0; c_timestamp := Some 5%Z;
                      c_lastMessageBody := ""; c_archived := false;
                      c_pinned := false |};
                   {| c_id := "c@c.us"; c_name := "c"; c_isGroup := false;
                      c_unreadCount := 0; c_timestamp := Some 3%Z;
                      c_lastMessageBody := ""; c_archived := false;
                      c_pinned := false |}])))
  /\ (completion (server Demo.env (Demo.get "/api/chats" None) 7)
        Demo.readyWorld
      = Normal (Json 200
                  (BChats (map serializeChat
                             (keptChats Demo.env 3
                                (sort_by byRecency Demo.threeChats)))))
      /\ map c_timestamp
           (map serializeChat
              (keptChats Demo.env 3 (sort_by byRecency Demo.threeChats)))
         = [Some 5%Z; Some 3%Z; None]).
Proof.
  split.
  - apply (chat_list_sorted_truncated_projected (Demo.capped "2")
             Demo.readyWorld (Demo.get "/api/chats" None) 7 Demo.threeChats);
      reflexivity.
  - destruct (chat_list_sorted_truncated_projected Demo.env
                Demo.readyWorld (Demo.get "/api/chats" None) 7 Demo.threeChats
                eq_refl eq_refl eq_refl eq_refl)
      as [Hreply [_ [_ [_ [_ [_ Hexample]]]]]].
    split; [exact Hreply|].
    apply (Hexample (Demo.chat "a" (Some 5%Z)) (Demo.chat "b" None)
             (Demo.chat "c" (Some 3%Z)) (100 # 1)%Q);
      try reflexivity.
    discriminate.
Defined.
